(** * oak: the [multipart/form-data] decoder of [multipart.ts]

    A shallow embedding of [FormDataReader] and of the part engine [parts],
    with the host platform (file system, text codec, media-type table,
    random names) kept abstract in a [Host] record, and the repository
    modules that [multipart.ts] imports modelled next to it. *)

From Stdlib Require Import ZArith Ascii String List Bool Lia.
From Stdlib.Strings Require Import Byte.
From stdpp Require Import gmap strings list.
Import ListNotations.

Local Open Scope Z_scope.
Local Open Scope list_scope.

(* ===================================================================== *)
(** ** Bytes and lines *)
(* ===================================================================== *)

Abbreviation bytes := (list Byte.byte).

Definition CR : Byte.byte := Byte.x0d.
Definition LF : Byte.byte := Byte.x0a.
Definition SPACE : Byte.byte := Byte.x20.
Definition HTAB : Byte.byte := Byte.x09.
Definition COLON : Byte.byte := Byte.x3a.

(** [Uint8Array.byteLength]. *)
Definition byteLength (b : bytes) : Z := Z.of_nat (length b).

(** [equals] of [deps.ts] (the standard [bytes] module): element-wise
    equality of two byte arrays. *)
Fixpoint equals (a b : bytes) : bool :=
  match a, b with
  | [], [] => true
  | x :: a', y :: b' => Byte.eqb x y && equals a' b'
  | _, _ => false
  end.

(** [append] (multipart.ts, lines 93-98). *)
Definition append (a b : bytes) : bytes := a ++ b.

(** Modelled from the spec: [skipLWSPChar] of [util.ts] is missing; the spec
    says that leading linear whitespace (space and horizontal tab) of the
    candidate line is stripped before the comparison with a marker. *)
Fixpoint skipLWSPChar (u8 : bytes) : bytes :=
  match u8 with
  | b :: rest =>
      if Byte.eqb b SPACE || Byte.eqb b HTAB then skipLWSPChar rest else u8
  | [] => []
  end.

(** Modelled from the spec: [stripEol] of [util.ts] is missing; it drops
    the trailing end-of-line bytes of a line, a line feed with the carriage
    return before it when there is one. *)
Definition stripEol (value : bytes) : bytes :=
  match rev value with
  | l :: c :: before =>
      if Byte.eqb l LF
      then if Byte.eqb c CR then rev before else rev (c :: before)
      else value
  | [l] => if Byte.eqb l LF then [] else value
  | [] => value
  end.

(** [isEqual] (multipart.ts, lines 100-102). *)
Definition isEqual (a b : bytes) : bool := equals (skipLWSPChar a) b.

(** Modelled from the spec: [BufReader] of [buf_reader.ts] is missing; the
    spec describes it as a buffered, line-oriented byte reader with a mode
    that either strips or preserves the trailing end-of-line bytes.  Its
    state is the sequence of raw lines, each with its terminator, that the
    reader has still to deliver; [readLine] delivers the next one and
    answers [None] (the source's [null]) once the stream is exhausted. *)
Definition BufReader := list bytes.

Definition readLine (strip : bool) (body : BufReader)
  : option (bytes * BufReader) :=
  match body with
  | [] => None
  | line :: rest => Some (if strip then stripEol line else line, rest)
  end.

(** The raw lines of a byte stream: every line ends with its line feed,
    except possibly the last one. *)
Fixpoint split_lines (cur : bytes) (stream : bytes) : BufReader :=
  match stream with
  | [] => match cur with [] => [] | _ => [rev cur] end
  | b :: rest =>
      if Byte.eqb b LF then rev (b :: cur) :: split_lines [] rest
      else split_lines (b :: cur) rest
  end.

Definition new_BufReader (stream : bytes) : BufReader := split_lines [] stream.

(* ===================================================================== *)
(** ** Strings of header values *)
(* ===================================================================== *)

Definition DQUOTE : ascii := "034"%char.
Definition BACKSLASH : ascii := "092"%char.
Definition SEMI : ascii := ";"%char.

(** The characters of the regular expression class [\s] in the ASCII range. *)
Definition is_space (c : ascii) : bool :=
  let n := nat_of_ascii c in
  (Nat.eqb n 32 || (Nat.leb 9 n && Nat.leb n 13))%bool.

Definition lower (c : ascii) : ascii :=
  let n := nat_of_ascii c in
  if (Nat.leb 65 n && Nat.leb n 90)%bool then ascii_of_nat (n + 32) else c.

Definition ascii_eqb_ci (a b : ascii) : bool := Ascii.eqb (lower a) (lower b).

Fixpoint skip_spaces (s : list ascii) : list ascii :=
  match s with
  | c :: rest => if is_space c then skip_spaces rest else s
  | [] => []
  end.

(** [String.prototype.trim] and [toLowerCase]. *)
Definition trim (s : string) : string :=
  string_of_list_ascii
    (rev (skip_spaces (rev (skip_spaces (list_ascii_of_string s))))).

Definition toLowerCase (s : string) : string :=
  string_of_list_ascii (map lower (list_ascii_of_string s)).

(** Matches the literal [pat] at the head of [s], ignoring case, and gives
    what follows it. *)
Fixpoint match_literal_ci (pat s : list ascii) : option (list ascii) :=
  match pat, s with
  | [], _ => Some s
  | p :: pat', c :: s' =>
      if ascii_eqb_ci p c then match_literal_ci pat' s' else None
  | _ :: _, [] => None
  end.

Fixpoint take_token (s : list ascii) : list ascii :=
  match s with
  | c :: rest =>
      if (Ascii.eqb c SEMI || is_space c)%bool then [] else c :: take_token rest
  | [] => []
  end.

(** The inside of a quoted parameter value with its closing quote when there
    is one: characters other than a quote or a backslash, and backslashes,
    each with the quote behind it. *)
Fixpoint take_quoted (s : list ascii) : list ascii :=
  match s with
  | c :: rest =>
      if Ascii.eqb c DQUOTE then [DQUOTE]
      else if Ascii.eqb c BACKSLASH then
        match rest with
        | d :: rest' =>
            if Ascii.eqb d DQUOTE then c :: d :: take_quoted rest'
            else c :: take_quoted rest
        | [] => [c]
        end
      else c :: take_quoted rest
  | [] => []
  end.

Definition param_value (s : list ascii) : option (list ascii) :=
  match s with
  | [] => None
  | c :: rest =>
      if Ascii.eqb c DQUOTE then
        match take_quoted rest with
        | [] => None
        | d :: more => if Ascii.eqb d DQUOTE then None else Some (c :: d :: more)
        end
      else if (Ascii.eqb c SEMI || is_space c)%bool then None
      else Some (c :: take_token rest)
  end.

Definition param_here (attr s : list ascii) : option (list ascii) :=
  match match_literal_ci attr (skip_spaces s) with
  | Some after =>
      match skip_spaces after with
      | c :: v => if Ascii.eqb c "="%char then param_value (skip_spaces v) else None
      | [] => None
      end
  | None => None
  end.

Fixpoint param_search (attr : list ascii) (at_start : bool) (s : list ascii)
  : option (list ascii) :=
  match (if at_start then param_here attr s else None) with
  | Some v => Some v
  | None =>
      match s with
      | [] => None
      | c :: rest =>
          match (if Ascii.eqb c SEMI then param_here attr rest else None) with
          | Some v => Some v
          | None => param_search attr false rest
          end
      end
  end.

(** Modelled from the spec: [toParamRegExp] of [headers.ts] is missing; the
    spec has a parameter found by a structural match, its name compared
    without regard to case and its value either bare or quoted.  The result
    is the captured value, still quoted, of the first parameter [attr] that
    stands at the start of the header value or behind a semicolon. *)
Definition param_exec (attr : string) (value : string) : option string :=
  string_of_list_ascii <$>
    param_search (list_ascii_of_string attr) true (list_ascii_of_string value).

Fixpoint unquote_chars (s : list ascii) : list ascii :=
  match s with
  | c :: rest =>
      if Ascii.eqb c DQUOTE then []
      else if Ascii.eqb c BACKSLASH then
        match rest with
        | d :: rest' => d :: unquote_chars rest'
        | [] => [c]
        end
      else c :: unquote_chars rest
  | [] => []
  end.

(** Modelled from the spec: [unquote] of [headers.ts] is missing; a quoted
    value loses its quotes and its backslash escapes collapse, a bare value
    is kept as it is. *)
Definition unquote (value : string) : string :=
  match list_ascii_of_string value with
  | c :: rest =>
      if Ascii.eqb c DQUOTE then string_of_list_ascii (unquote_chars rest)
      else value
  | [] => value
  end.

(** Modelled from the spec: [getFilename] of [content_disposition.ts] is
    missing; the original name is taken, best effort, from the [filename]
    parameter of the disposition, and is empty when the header omits it. *)
Definition getFilename (contentDisposition : string) : string :=
  match param_exec "filename" contentDisposition with
  | Some v => unquote v
  | None => ""
  end.

(** The test [/^form-data;/i] of [parts]. *)
Definition is_form_data (contentDisposition : string) : bool :=
  match match_literal_ci (list_ascii_of_string "form-data;")
          (list_ascii_of_string contentDisposition) with
  | Some _ => true
  | None => false
  end.

(** JavaScript truthiness of a string that may be [undefined]. *)
Definition truthy (s : option string) : bool :=
  match s with
  | Some s => negb (String.eqb s "")
  | None => false
  end.

(* ===================================================================== *)
(** ** Errors, host platform and storage *)
(* ===================================================================== *)

(** The messages of the [httpErrors.BadRequest] failures of the decoder. *)
Inductive BadRequestReason :=
| NoValidBoundary            (* Content type ... does not contain a valid boundary. *)
| UnableToFindBoundary       (* Unable to find multi-part boundary. *)
| MissingContentDisposition  (* Form data part missing content-disposition header *)
| UnexpectedContentDisposition (* Unexpected content-disposition header *)
| UnableToDetermineName      (* Unable to determine name of form body part *)
| UnexpectedEOF              (* Unexpected EOF reached *)
| InvalidMediaType           (* Invalid media type for part *)
| MalformedHeader            (* raised by readHeaders *)
| UnexpectedEndOfBody.       (* raised by readHeaders *)

Inductive Error :=
| BadRequest (reason : BadRequestReason)
| RequestEntityTooLarge (limit : Z)   (* File size exceeds limit of ... bytes. *)
| PermissionDenied                    (* Deno.errors.PermissionDenied *)
| AlreadyExists                       (* Deno.errors.AlreadyExists *)
| AlreadyBeingRead.                   (* Error: Body is already being read. *)

(** [err instanceof Deno.errors.PermissionDenied]. *)
Definition is_PermissionDenied (e : Error) : bool :=
  match e with PermissionDenied => true | _ => false end.

Inductive Res (A : Type) :=
| Ok (a : A)
| Throw (e : Error).
Arguments Ok {A} a.
Arguments Throw {A} e.

(** What [multipart.ts] takes from the platform and from third-party
    modules: the text codec, the media-type table behind [extension], the
    temporary directories and random names, and the permission of a path. *)
Record Host := {
  text_decode : bytes -> string;          (* TextDecoder.decode *)
  text_encode : string -> bytes;          (* TextEncoder.encode *)
  extension : string -> option string;    (* extension(contentType), None for undefined *)
  random_name : nat -> string;            (* the random part of getRandomFilename *)
  temp_dir : nat -> string;               (* the directories of Deno.makeTempDir *)
  temp_denied : bool;                     (* Deno.makeTempDir lacks the permission *)
  write_denied : string -> bool           (* Deno.open lacks the permission for a path *)
}.

(** A file of the storage: [Deno.File] handles are positions in [w_files]. *)
Record StoredFile := {
  f_path : string;
  f_data : bytes;
  f_open : bool
}.

Record World := {
  w_files : list StoredFile;   (* files created so far, in creation order *)
  w_random : nat;              (* random names drawn so far *)
  w_temp : nat;                (* temporary directories made so far *)
  w_log : list Error           (* what console.error has printed *)
}.

Definition empty_world : World :=
  {| w_files := []; w_random := 0%nat; w_temp := 0%nat; w_log := [] |}.

Definition with_files (w : World) (fs : list StoredFile) : World :=
  {| w_files := fs; w_random := w_random w; w_temp := w_temp w; w_log := w_log w |}.

(** [console.error(...)]. *)
Definition console_error (e : Error) (w : World) : World :=
  {| w_files := w_files w; w_random := w_random w; w_temp := w_temp w;
     w_log := w_log w ++ [e] |}.

Definition path_exists (path : string) (w : World) : bool :=
  existsb (fun f => String.eqb (f_path f) path) (w_files w).

(** [Deno.writeAll(file, data)]. *)
Definition writeAll (file : nat) (data : bytes) (w : World) : World :=
  match w_files w !! file with
  | Some f =>
      with_files w
        (<[file := {| f_path := f_path f; f_data := f_data f ++ data;
                      f_open := f_open f |}]> (w_files w))
  | None => w
  end.

(** [file.close()]. *)
Definition close (file : nat) (w : World) : World :=
  match w_files w !! file with
  | Some f =>
      with_files w
        (<[file := {| f_path := f_path f; f_data := f_data f;
                      f_open := false |}]> (w_files w))
  | None => w
  end.

(** The handles that are open, and the content stored at a path. *)
Definition open_handles (w : World) : list string :=
  f_path <$> filter (fun f => f_open f = true) (w_files w).

Definition stored_at (path : string) (w : World) : option bytes :=
  f_data <$> find (fun f => String.eqb (f_path f) path) (w_files w).

Section Decoder.

Variable host : Host.

(** [Deno.makeTempDir()]. *)
Definition makeTempDir (w : World) : Res string * World :=
  if temp_denied host then (Throw PermissionDenied, w)
  else (Ok (temp_dir host (w_temp w)),
        {| w_files := w_files w; w_random := w_random w;
           w_temp := S (w_temp w); w_log := w_log w |}).

(** Modelled from the spec: [getRandomFilename] of [util.ts] is missing; the
    file name is the prefix, a random name and the extension behind a dot. *)
Definition getRandomFilename (prefix : option string) (ext : string) (w : World)
  : string * World :=
  ((default "" prefix ++ random_name host (w_random w) ++
      (if String.eqb ext "" then "" else "." ++ ext))%string,
   {| w_files := w_files w; w_random := S (w_random w);
      w_temp := w_temp w; w_log := w_log w |}).

(** [Deno.open(filename, { write: true, createNew: true })]. *)
Definition open_createNew (filename : string) (w : World) : Res nat * World :=
  if write_denied host filename then (Throw PermissionDenied, w)
  else if path_exists filename w then (Throw AlreadyExists, w)
  else (Ok (length (w_files w)),
        with_files w
          (w_files w ++ [{| f_path := filename; f_data := []; f_open := true |}])).

(** [getFile] (multipart.ts, lines 128-139).  [outPath] and [prefix] are
    variables of the enclosing [parts]; [outPath] is assigned here, so it is
    passed in and handed back. *)
Definition getFile (prefix outPath : option string) (contentType : string)
    (w : World)
  : Res (string * nat) * option string * World :=
  match extension host contentType with
  | None => (Throw (BadRequest InvalidMediaType), outPath, w)
  | Some ext =>
      if String.eqb ext "" then (Throw (BadRequest InvalidMediaType), outPath, w)
      else
        let '(dir, outPath, w) :=
          if truthy outPath then (Ok (default "" outPath), outPath, w)
          else match makeTempDir w with
               | (Ok d, w') => (Ok d, Some d, w')
               | (Throw e, w') => (Throw e, outPath, w')
               end in
        match dir with
        | Throw e => (Throw e, outPath, w)
        | Ok dir =>
            let '(rnd, w) := getRandomFilename prefix ext w in
            let filename := (dir ++ "/" ++ rnd)%string in
            match open_createNew filename w with
            | (Ok file, w) => (Ok (filename, file), outPath, w)
            | (Throw e, w) => (Throw e, outPath, w)
            end
        end
  end.

(* ===================================================================== *)
(** ** Header blocks *)
(* ===================================================================== *)

Fixpoint split_at_colon (before : bytes) (line : bytes) : option (bytes * bytes) :=
  match line with
  | [] => None
  | b :: rest =>
      if Byte.eqb b COLON then Some (rev before, rest)
      else split_at_colon (b :: before) rest
  end.

(** Modelled from the spec: [readHeaders] of [headers.ts] is missing; it
    consumes lines of the line source up to a blank line and returns the
    mapping of the header names, in lower case, to their values; the header
    lines are colon-separated. *)
Fixpoint readHeaders (headers : gmap string string) (body : BufReader)
  : Res (gmap string string) * BufReader :=
  match body with
  | [] => (Throw (BadRequest UnexpectedEndOfBody), [])
  | line :: rest =>
      match stripEol line with
      | [] => (Ok headers, rest)
      | b :: bs =>
          match split_at_colon [] (b :: bs) with
          | None => (Throw (BadRequest MalformedHeader), rest)
          | Some (k, v) =>
              let key := toLowerCase (trim (text_decode host k)) in
              if String.eqb key "" then (Throw (BadRequest MalformedHeader), rest)
              else readHeaders
                     (<[key := trim (text_decode host (skipLWSPChar v))]> headers)
                     rest
          end
      end
  end.

(* ===================================================================== *)
(** ** The part engine *)
(* ===================================================================== *)

(** [FormDataFile] (multipart.ts, lines 35-51); [None] is [undefined]. *)
Record FormDataFile := {
  content : option bytes;
  contentType : string;
  filename : option string;
  name : string;
  originalName : string
}.

(** The second component of a yielded pair, [string | FormDataFile]. *)
Inductive PartValue :=
| Field (value : string)
| File (file : FormDataFile).

Definition Part : Type := string * PartValue.

(** [PartsOptions] (multipart.ts, lines 83-91) without [body], which is the
    state of the line source and is threaded through the loops. *)
Record PartsOptions := {
  final : bytes;
  maxFileSize : Z;
  maxSize : Z;
  outPath : option string;
  part : bytes;
  prefix : option string
}.

(** The variables of the file branch (lines 165-168). *)
Record FileVars := {
  v_byteLength : Z;
  v_file : option nat;
  v_filename : option string;
  v_buf : option bytes
}.

(** How the reading of one part ends: with the [yield] of the part, followed
    by [return] when the line was the final marker and by [break] when it
    was not, or with a [throw]. *)
Inductive PartEnd :=
| Yielded (p : Part) (is_final : bool)
| Failed (e : Error).

Record PartRun := {
  pr_end : PartEnd;
  pr_outPath : option string;
  pr_world : World;
  pr_body : BufReader
}.

Definition NL : string := String "010"%char EmptyString.

(** [file.close()] under [if (file)]. *)
Definition close_if (file : option nat) (w : World) : World :=
  match file with Some f => close f w | None => w end.

Definition is_boundary (o : PartsOptions) (line : bytes) : bool :=
  isEqual line (part o) || isEqual line (final o).

(** The inner loop of the file branch (multipart.ts, lines 176-225); the
    match on [body] is [body.readLine(false)]. *)
Fixpoint file_loop (o : PartsOptions) (name contentType originalName : string)
    (v : FileVars) (outPath : option string) (w : World) (body : BufReader)
  : PartRun :=
  match body with
  | [] => {| pr_end := Failed (BadRequest UnexpectedEOF); pr_outPath := outPath;
             pr_world := w; pr_body := [] |}
  | bytes :: body =>
      let strippedBytes := stripEol bytes in
      if is_boundary o strippedBytes then
        let w := close_if (v_file v) w in
        {| pr_end :=
             Yielded (name, File {| content := v_buf v; contentType := contentType;
                                    name := name; filename := v_filename v;
                                    originalName := originalName |})
                     (isEqual strippedBytes (final o));
           pr_outPath := outPath; pr_world := w; pr_body := body |}
      else
        let byteLength := v_byteLength v + byteLength bytes in
        if byteLength >? maxFileSize o then
          let w := close_if (v_file v) w in
          {| pr_end := Failed (RequestEntityTooLarge (maxFileSize o));
             pr_outPath := outPath; pr_world := w; pr_body := body |}
        else
          let spilled :=
            match v_buf v with
            | Some buf =>
                if byteLength >? maxSize o then
                  match getFile (prefix o) outPath contentType w with
                  | (Ok (filename, file), outPath, w) =>
                      let w := writeAll file buf w in
                      (Ok {| v_byteLength := byteLength; v_file := Some file;
                             v_filename := Some filename; v_buf := None |},
                       outPath, w)
                  | (Throw e, outPath, w) => (Throw e, outPath, w)
                  end
                else
                  (Ok {| v_byteLength := byteLength; v_file := v_file v;
                         v_filename := v_filename v;
                         v_buf := Some (append buf bytes) |},
                   outPath, w)
            | None =>
                (Ok {| v_byteLength := byteLength; v_file := v_file v;
                       v_filename := v_filename v; v_buf := None |},
                 outPath, w)
            end in
          match spilled with
          | (Throw e, outPath, w) =>
              {| pr_end := Failed e; pr_outPath := outPath; pr_world := w;
                 pr_body := body |}
          | (Ok v, outPath, w) =>
              let w := match v_file v with
                       | Some file => writeAll file bytes w
                       | None => w
                       end in
              file_loop o name contentType originalName v outPath w body
          end
  end.

(** The file branch (multipart.ts, lines 164-225). *)
Definition file_part (o : PartsOptions) (name contentType contentDisposition : string)
    (outPath : option string) (w : World) (body : BufReader) : PartRun :=
  let originalName := getFilename contentDisposition in
  if negb (maxSize o =? 0) then
    file_loop o name contentType originalName
      {| v_byteLength := 0; v_file := None; v_filename := None; v_buf := Some [] |}
      outPath w body
  else
    match getFile (prefix o) outPath contentType w with
    | (Ok (filename, file), outPath, w) =>
        file_loop o name contentType originalName
          {| v_byteLength := 0; v_file := Some file; v_filename := Some filename;
             v_buf := None |}
          outPath w body
    | (Throw e, outPath, w) =>
        {| pr_end := Failed e; pr_outPath := outPath; pr_world := w;
           pr_body := body |}
    end.

(** The inner loop of the field branch (multipart.ts, lines 228-242); the
    match on [body] is [body.readLine()], which strips the end of line. *)
Fixpoint field_loop (o : PartsOptions) (name : string) (lines : list string)
    (body : BufReader) : PartEnd * BufReader :=
  match body with
  | [] => (Failed (BadRequest UnexpectedEOF), [])
  | raw :: body =>
      let bytes := stripEol raw in
      if is_boundary o bytes then
        (Yielded (name, Field (String.concat NL lines)) (isEqual bytes (final o)),
         body)
      else field_loop o name (lines ++ [text_decode host bytes]) body
  end.

Definition failed (e : Error) (outPath : option string) (w : World)
    (body : BufReader) : PartRun :=
  {| pr_end := Failed e; pr_outPath := outPath; pr_world := w; pr_body := body |}.

(** One turn of the outer loop of [parts] (multipart.ts, lines 142-243). *)
Definition one_part (o : PartsOptions) (outPath : option string) (w : World)
    (body : BufReader) : PartRun :=
  match readHeaders ∅ body with
  | (Throw e, body) => failed e outPath w body
  | (Ok headers, body) =>
      let contentType := headers !! "content-type"%string in
      let contentDisposition := headers !! "content-disposition"%string in
      if negb (truthy contentDisposition) then
        failed (BadRequest MissingContentDisposition) outPath w body
      else
        let contentDisposition := default ""%string contentDisposition in
        if negb (is_form_data contentDisposition) then
          failed (BadRequest UnexpectedContentDisposition) outPath w body
        else
          match param_exec "name" contentDisposition with
          | None => failed (BadRequest UnableToDetermineName) outPath w body
          | Some matched =>
              let name := unquote matched in
              if truthy contentType then
                file_part o name (default ""%string contentType)
                  contentDisposition outPath w body
              else
                let '(e, body) := field_loop o name [] body in
                {| pr_end := e; pr_outPath := outPath; pr_world := w;
                   pr_body := body |}
          end
  end.

(** A run of the generator [parts] to its end: the parts it yields, the
    error it throws when it does not return, and the state it leaves. *)
Record Generated := {
  g_parts : list Part;
  g_thrown : option Error;
  g_world : World;
  g_body : BufReader
}.

Definition yield_first (p : Part) (g : Generated) : Generated :=
  {| g_parts := p :: g_parts g; g_thrown := g_thrown g; g_world := g_world g;
     g_body := g_body g |}.

(** The outer [while (true)] of [parts], unrolled at most [turns] times. *)
Fixpoint parts_turns (turns : nat) (o : PartsOptions) (outPath : option string)
    (w : World) (body : BufReader) : option Generated :=
  match turns with
  | O => None
  | S turns =>
      let r := one_part o outPath w body in
      match pr_end r with
      | Failed e =>
          Some {| g_parts := []; g_thrown := Some e; g_world := pr_world r;
                  g_body := pr_body r |}
      | Yielded p true =>
          Some {| g_parts := [p]; g_thrown := None; g_world := pr_world r;
                  g_body := pr_body r |}
      | Yielded p false =>
          yield_first p <$>
            parts_turns turns o (pr_outPath r) (pr_world r) (pr_body r)
      end
  end.

(** The outer loop of [parts] run to its end, from the current value of the
    variable [outPath].  Every turn takes at least one line from the line
    source, so one turn more than there are lines is enough
    ([parts_turns_enough] below); the default is never used. *)
Definition parts_from (o : PartsOptions) (outPath : option string) (w : World)
    (body : BufReader) : Generated :=
  default {| g_parts := []; g_thrown := None; g_world := w; g_body := body |}
    (parts_turns (S (length body)) o outPath w body).

(** [parts] (multipart.ts, lines 125-245). *)
Definition parts (o : PartsOptions) (w : World) (body : BufReader) : Generated :=
  parts_from o (outPath o) w body.

(* ===================================================================== *)
(** ** [FormDataReader] *)
(* ===================================================================== *)

Definition DEFAULT_BUFFER_SIZE : Z := 1048576.
Definition DEFAULT_MAX_FILE_SIZE : Z := 10485760.
Definition DEFAULT_MAX_SIZE : Z := 0.

(** [FormDataBody] (multipart.ts, lines 19-32): [fields] is the object used
    as a map from names to values, [files] the optional array. *)
Record FormDataBody := {
  fields : gmap string string;
  files : option (list FormDataFile)
}.

(** [FormDataReadOptions] (multipart.ts, lines 53-81).  [bufferSize] only
    sizes the buffer of the line source and has no part in the model of
    it. *)
Record FormDataReadOptions := {
  opt_bufferSize : option Z;
  opt_maxFileSize : option Z;
  opt_maxSize : option Z;
  opt_outPath : option string;
  opt_prefix : option string
}.

Definition no_options : FormDataReadOptions :=
  {| opt_bufferSize := None; opt_maxFileSize := None; opt_maxSize := None;
     opt_outPath := None; opt_prefix := None |}.

(** The private fields of a [FormDataReader]; [rd_body] is what the
    underlying reader [#body] has still to deliver, as raw lines. *)
Record FormDataReader := {
  rd_body : BufReader;
  boundaryFinal : bytes;
  boundaryPart : bytes;
  reading : bool
}.

(** The constructor (multipart.ts, lines 255-267). *)
Definition new_FormDataReader (contentType : string) (body : BufReader)
  : Res FormDataReader :=
  match param_exec "boundary" contentType with
  | None => Throw (BadRequest NoValidBoundary)
  | Some matched =>
      let boundary := unquote matched in
      Ok {| rd_body := body;
            boundaryFinal := text_encode host ("--" ++ boundary ++ "--")%string;
            boundaryPart := text_encode host ("--" ++ boundary)%string;
            reading := false |}
  end.

Definition set_reading (this : FormDataReader) : FormDataReader :=
  {| rd_body := rd_body this; boundaryFinal := boundaryFinal this;
     boundaryPart := boundaryPart this; reading := true |}.

Definition set_body (this : FormDataReader) (body : BufReader) : FormDataReader :=
  {| rd_body := body; boundaryFinal := boundaryFinal this;
     boundaryPart := boundaryPart this; reading := reading this |}.

(** [readToStartOrEnd] (multipart.ts, lines 104-121); the match on [body] is
    [body.readLine()]. *)
Fixpoint readToStartOrEnd (body : BufReader) (start end_ : bytes)
  : Res bool * BufReader :=
  match body with
  | [] => (Throw (BadRequest UnableToFindBoundary), [])
  | raw :: body =>
      let bytes := stripEol raw in
      if isEqual bytes start then (Ok true, body)
      else if isEqual bytes end_ then (Ok false, body)
      else readToStartOrEnd body start end_
  end.

(** The options that [read] and [stream] hand to [parts]: [prefix] is not
    among them. *)
Definition parts_options (this : FormDataReader) (options : FormDataReadOptions)
  : PartsOptions :=
  {| final := boundaryFinal this;
     maxFileSize := default DEFAULT_MAX_FILE_SIZE (opt_maxFileSize options);
     maxSize := default DEFAULT_MAX_SIZE (opt_maxSize options);
     outPath := opt_outPath options;
     part := boundaryPart this;
     prefix := None |}.

(** The body of the [for await] of [read] (multipart.ts, lines 306-314).
    [result.fields] is a plain object, so the assignment
    [result.fields[key] = value] under the key [__proto__] reaches the
    setter that the object inherits, which ignores a string: no property is
    made and the object stays as it is.  Every other key becomes, or
    overwrites, a property of the object. *)
Definition collect (result : FormDataBody) (p : Part) : FormDataBody :=
  let '(key, value) := p in
  match value with
  | Field value =>
      if String.eqb key "__proto__" then result
      else {| fields := <[key := value]> (fields result); files := files result |}
  | File value =>
      {| fields := fields result;
         files := Some (default [] (files result) ++ [value]) |}
  end.

Definition empty_result : FormDataBody := {| fields := ∅; files := None |}.

(** [FormDataReader.read] (multipart.ts, lines 277-324). *)
Definition read (options : FormDataReadOptions) (this : FormDataReader)
    (w : World) : Res FormDataBody * FormDataReader * World :=
  if reading this then (Throw AlreadyBeingRead, this, w)
  else
    let this := set_reading this in
    let result := empty_result in
    match readToStartOrEnd (rd_body this) (boundaryPart this) (boundaryFinal this) with
    | (Throw e, body) => (Throw e, set_body this body, w)
    | (Ok false, body) => (Ok result, set_body this body, w)
    | (Ok true, body) =>
        let g := parts (parts_options this options) w body in
        let result := fold_left collect (g_parts g) result in
        let this := set_body this (g_body g) in
        match g_thrown g with
        | None => (Ok result, this, g_world g)
        | Some err =>
            if is_PermissionDenied err
            then (Ok result, this, console_error err (g_world g))
            else (Throw err, this, g_world g)
        end
    end.

(** The object that a call of the async generator method [stream] returns:
    none of the body of the method has run yet. *)
Inductive StreamIterator :=
| SuspendedStart (options : FormDataReadOptions).

(** [FormDataReader.stream] (multipart.ts, lines 330-369): the call. *)
Definition stream (options : FormDataReadOptions) (this : FormDataReader)
  : StreamIterator * FormDataReader :=
  (SuspendedStart options, this).

(** [FormDataReader.stream] (multipart.ts, lines 333-368): the body of the
    generator, run from its start to its end by a consumer that asks for
    every part. *)
Definition drain (it : StreamIterator) (this : FormDataReader) (w : World)
  : Generated * FormDataReader :=
  let 'SuspendedStart options := it in
  if reading this then
    ({| g_parts := []; g_thrown := Some AlreadyBeingRead; g_world := w;
        g_body := rd_body this |}, this)
  else
    let this := set_reading this in
    match readToStartOrEnd (rd_body this) (boundaryPart this) (boundaryFinal this) with
    | (Throw e, body) =>
        ({| g_parts := []; g_thrown := Some e; g_world := w; g_body := body |},
         set_body this body)
    | (Ok false, body) =>
        ({| g_parts := []; g_thrown := None; g_world := w; g_body := body |},
         set_body this body)
    | (Ok true, body) =>
        let g := parts (parts_options this options) w body in
        let this := set_body this (g_body g) in
        match g_thrown g with
        | None => (g, this)
        | Some err =>
            if is_PermissionDenied err
            then ({| g_parts := g_parts g; g_thrown := None;
                     g_world := console_error err (g_world g);
                     g_body := g_body g |}, this)
            else (g, this)
        end
    end.

End Decoder.

(* ===================================================================== *)
(** ** A host and a reference encoder for the examples *)
(* ===================================================================== *)

(** A host whose text codec is the identity on single-byte characters, which
    is what UTF-8 is on ASCII text, whose media-type table knows two types,
    and whose storage grants every permission. *)
Definition open_host : Host :=
  {| text_decode := string_of_list_byte;
     text_encode := list_byte_of_string;
     extension := fun ct =>
       if String.eqb ct "text/plain" then Some "txt"%string
       else if String.eqb ct "image/png" then Some "png"%string
       else None;
     random_name := fun n => string_of_list_ascii (repeat "x"%char (S n));
     temp_dir := fun n => ("/tmp/" ++ string_of_list_ascii (repeat "d"%char (S n)))%string;
     temp_denied := false;
     write_denied := fun _ => false |}.

(** The same host without the permission to write: no directory and no
    file can be made. *)
Definition locked_host : Host :=
  {| text_decode := text_decode open_host;
     text_encode := text_encode open_host;
     extension := extension open_host;
     random_name := random_name open_host;
     temp_dir := temp_dir open_host;
     temp_denied := true;
     write_denied := fun _ => true |}.

Definition str (s : string) : bytes := list_byte_of_string s.
Definition CRLF : bytes := [CR; LF].
Definition quoted (s : string) : string :=
  String DQUOTE (s ++ String DQUOTE EmptyString).

(** What a form holds: text fields and files. *)
Inductive FormEntry :=
| TextEntry (name value : string)
| FileEntry (name fileName mediaType : string) (data : bytes).

(** A reference encoder after RFC 7578: every entry is a delimiter line, the
    header lines, a blank line and the content; the line break behind the
    content belongs to the next delimiter. *)
Definition encode_entry (boundary : string) (e : FormEntry) : bytes :=
  match e with
  | TextEntry name value =>
      str ("--" ++ boundary) ++ CRLF ++
      str ("Content-Disposition: form-data; name=" ++ quoted name) ++ CRLF ++
      CRLF ++ str value ++ CRLF
  | FileEntry name fileName mediaType data =>
      str ("--" ++ boundary) ++ CRLF ++
      str ("Content-Disposition: form-data; name=" ++ quoted name ++
           "; filename=" ++ quoted fileName) ++ CRLF ++
      str ("Content-Type: " ++ mediaType) ++ CRLF ++
      CRLF ++ data ++ CRLF
  end.

Definition encode_form (boundary : string) (es : list FormEntry) : bytes :=
  concat (map (encode_entry boundary) es) ++ str ("--" ++ boundary ++ "--") ++ CRLF.

(** What decoding gives back for an entry: the name with the value of a
    field, or with the content of a file held in memory. *)
Definition decoded_entry (p : Part) : option (string * bytes) :=
  match p with
  | (n, Field v) => Some (n, str v)
  | (n, File f) => (fun c => (n, c)) <$> content f
  end.

Definition entry_payload (e : FormEntry) : string * bytes :=
  match e with
  | TextEntry n v => (n, str v)
  | FileEntry n _ _ data => (n, data)
  end.

(** A reader over an encoded form with the boundary [boundary]. *)
Definition reader_of (h : Host) (boundary : string) (stream : bytes)
  : Res FormDataReader :=
  new_FormDataReader h ("multipart/form-data; boundary=" ++ boundary)
    (new_BufReader stream).

Definition in_memory (limit : Z) : FormDataReadOptions :=
  {| opt_bufferSize := None; opt_maxFileSize := None; opt_maxSize := Some limit;
     opt_outPath := None; opt_prefix := None |}.

(** Engine options over the boundary [B], and a line of a body. *)
Definition demo_options (inMemory fileLimit : Z) : PartsOptions :=
  {| final := str "--B--"; maxFileSize := fileLimit; maxSize := inMemory;
     outPath := None; part := str "--B"; prefix := None |}.

Definition line (s : string) : bytes := str s ++ CRLF.

(** The header block of a text field named [a], and the headers it holds. *)
Definition demo_field_head : BufReader :=
  [line ("Content-Disposition: form-data; name=" ++ quoted "a"); CRLF].

Definition demo_field_headers : gmap string string :=
  {[ "content-disposition"%string := ("form-data; name=" ++ quoted "a")%string ]}.

(** A reader over a body delimited by [B], as the constructor makes it. *)
Definition demo_reader (stream : bytes) : FormDataReader :=
  {| rd_body := new_BufReader stream; boundaryFinal := str "--B--";
     boundaryPart := str "--B"; reading := false |}.

(** A form with a repeated field name and a repeated file name, one with a
    single file, and one with a field in front of a file. *)
Definition demo_form_repeats : list FormEntry :=
  [TextEntry "a" "1"; FileEntry "f" "x.txt" "text/plain" (str "hi");
   TextEntry "a" "2"; FileEntry "f" "y.txt" "text/plain" (str "yo")].


Definition demo_form_file : list FormEntry :=
  [FileEntry "f" "a.txt" "text/plain" (str "hi")].

Definition demo_form_mixed : list FormEntry :=
  [TextEntry "a" "1"; FileEntry "f" "a.txt" "text/plain" (str "hi");
   TextEntry "b" "2"].

Definition demo_file (fileName : string) (data : bytes) : FormDataFile :=
  {| content := Some data; contentType := "text/plain"; filename := None;
     name := "f"; originalName := fileName |}.

(* ===================================================================== *)
(** ** Vocabulary of the statements *)
(* ===================================================================== *)

(** The cumulative byte count of the raw lines of a part. *)
Definition total (lines : list bytes) : Z := byteLength (concat lines).

(** A line that the engine does not take for a marker. *)
Definition content_line (o : PartsOptions) (raw : bytes) : Prop :=
  is_boundary o (stripEol raw) = false.




(** The file parts of a sequence of parts, in their order. *)
Definition file_of (p : Part) : option FormDataFile :=
  match p with
  | (_, File f) => Some f
  | (_, Field _) => None
  end.


(** No file extension can be derived from a content type: [!ext]. *)
Definition no_extension (host : Host) (contentType : string) : Prop :=
  extension host contentType = None \/ extension host contentType = Some ""%string.

Definition with_maxFileSize (limit : Z) (o : PartsOptions) : PartsOptions :=
  {| final := final o; maxFileSize := limit; maxSize := maxSize o;
     outPath := outPath o; part := part o; prefix := prefix o |}.

(** What one line that is no marker and keeps the count within
    [maxFileSize] does to the variables of the file branch (multipart.ts,
    lines 211-224): the part of the body of [file_loop] behind the two
    tests. *)
Definition file_line (host : Host) (o : PartsOptions) (ctype : string)
    (v : FileVars) (outPath : option string) (w : World) (bytes : bytes)
  : Res FileVars * option string * World :=
  let byteLength := v_byteLength v + byteLength bytes in
  let spilled :=
    match v_buf v with
    | Some buf =>
        if byteLength >? maxSize o then
          match getFile host (prefix o) outPath ctype w with
          | (Ok (filename, file), outPath, w) =>
              let w := writeAll file buf w in
              (Ok {| v_byteLength := byteLength; v_file := Some file;
                     v_filename := Some filename; v_buf := None |},
               outPath, w)
          | (Throw e, outPath, w) => (Throw e, outPath, w)
          end
        else
          (Ok {| v_byteLength := byteLength; v_file := v_file v;
                 v_filename := v_filename v;
                 v_buf := Some (append buf bytes) |},
           outPath, w)
    | None =>
        (Ok {| v_byteLength := byteLength; v_file := v_file v;
               v_filename := v_filename v; v_buf := None |},
         outPath, w)
    end in
  match spilled with
  | (Throw e, outPath, w) => (Throw e, outPath, w)
  | (Ok v, outPath, w) =>
      (Ok v, outPath,
       match v_file v with
       | Some file => writeAll file bytes w
       | None => w
       end)
  end.

(** A yielded part is well located: a file part carries its own name and
    has either its content or its storage path, never both and never
    neither. *)
Definition well_located (p : Part) : Prop :=
  match p with
  | (n, File f) =>
      name f = n /\
      ((is_Some (content f) /\ filename f = None) \/
       (content f = None /\ is_Some (filename f)))
  | (_, Field _) => True
  end.

(** The variables of the file branch and the storage go together: either
    the part is in memory and the storage is as the part found it, or the
    part has its one file, the last of the storage, open. *)
Definition file_inv (w0 : World) (v : FileVars) (w : World) : Prop :=
  w_log w = w_log w0 /\
  ((v_file v = None /\ v_filename v = None /\ is_Some (v_buf v) /\
    w_files w = w_files w0) \/
   (v_buf v = None /\
    exists fn data,
      v_file v = Some (length (w_files w0)) /\ v_filename v = Some fn /\
      w_files w
      = w_files w0 ++ [{| f_path := fn; f_data := data; f_open := true |}])).

(** What the reading of a part leaves of a storage [w0]: its log and its
    files are kept, no handle is left open unless the stream ended inside
    the part, and a yielded part is well located. *)
Definition part_post (w0 : World) (r : PartRun) : Prop :=
  w_log (pr_world r) = w_log w0 /\
  w_files w0 `prefix_of` w_files (pr_world r) /\
  (pr_end r <> Failed (BadRequest UnexpectedEOF) ->
   open_handles (pr_world r) = open_handles w0) /\
  (forall p fin, pr_end r = Yielded p fin -> well_located p).

(** The directory of the storage files between two moments of a run of
    [parts]: it is made at most once, and not at all when one is given. *)
Definition temp_made (outPath0 : option string) (w0 : World)
    (outPath : option string) (w : World) : Prop :=
  (outPath = outPath0 /\ w_temp w = w_temp w0) \/
  (truthy outPath0 = false /\ truthy outPath = true /\
   w_temp w = S (w_temp w0)).

(** A file that is on the storage and not in memory. *)
Definition stored_file (f : FormDataFile) : Prop :=
  content f = None /\ is_Some (filename f).

Definition stored_part (p : Part) : Prop :=
  match p with
  | (_, File f) => stored_file f
  | (_, Field _) => True
  end.

(** The errors that a run of [parts] under the options [o] can end with:
    the bad requests of the parts, the size limit with [maxFileSize] in its
    message, and the errors of the platform's storage. *)
Definition part_error (o : PartsOptions) (e : Error) : Prop :=
  match e with
  | BadRequest r => r <> NoValidBoundary /\ r <> UnableToFindBoundary
  | RequestEntityTooLarge limit => limit = maxFileSize o
  | PermissionDenied | AlreadyExists => True
  | AlreadyBeingRead => False
  end.

(** The storage holds, closed, the file that a yielded file part names. *)
Definition path_is_closed_file (w : World) (p : Part) : Prop :=
  match p with
  | (_, File f) =>
      forall fn, filename f = Some fn ->
        exists data,
          {| f_path := fn; f_data := data; f_open := false |} ∈ w_files w
  | (_, Field _) => True
  end.

Definition with_prefix (p : option string) (options : FormDataReadOptions)
  : FormDataReadOptions :=
  {| opt_bufferSize := opt_bufferSize options;
     opt_maxFileSize := opt_maxFileSize options;
     opt_maxSize := opt_maxSize options;
     opt_outPath := opt_outPath options;
     opt_prefix := p |}.

(* ===================================================================== *)
(** ** The native HTTP server of [http_server_native.ts] *)
(* ===================================================================== *)

Module NativeServer.

(** An HTTP server of the platform, as [Deno.serve] returns it: whether it
    keeps the process alive and whether it still serves. *)
Record HttpServer := {
  hs_ref : bool;
  hs_running : bool
}.

(** The platform as the class sees it: whether [Deno] has [serve], whether
    the address can be bound, the servers started so far, a handle being the
    position of its server, and the [abort] listeners registered on the
    signal of the options. *)
Record Deno := {
  has_serve : bool;
  can_bind : bool;
  servers : list HttpServer;
  abort_listeners : nat
}.

Inductive Failure :=
| NoNativeBindings   (* Error: The native bindings for serving HTTP are not available. *)
| AlreadyListening   (* Error: Server already listening. *)
| NotListening       (* TypeError: Server hasn't started listening. *)
| StreamLocked       (* TypeError: the ReadableStream is locked to a reader *)
| ServeUndefined     (* TypeError: serve is not a function *)
| AddrInUse.         (* thrown by Deno.serve *)

Inductive Result (A : Type) :=
| Done (a : A)
| Raised (f : Failure).
Arguments Done {A} a.
Arguments Raised {A} f.

(** [ServeOptions | ServeTlsOptions], as far as the class looks at it. *)
Record ServeOptions := {
  has_signal : bool;
  has_onListen : bool
}.

(** A [ReadableStream] of requests: the server that feeds it, and whether
    a reader holds it.  The class keeps the only reference to the stream, so
    the state of the stream is kept with the field that holds it. *)
Record ReadableStream := {
  rs_source : nat;
  rs_locked : bool
}.

(** The private fields of a [Server]; [app] is a reference to the
    application. *)
Record Server := {
  app : nat;
  closed : bool;
  httpServer : option nat;
  options : ServeOptions;
  stream : option ReadableStream
}.

(** The constructor (http_server_native.ts, lines 45-56). *)
Definition new_Server (d : Deno) (application : nat) (opts : ServeOptions)
  : Result Server :=
  if negb (has_serve d) then Raised NoNativeBindings
  else Done {| app := application; closed := false; httpServer := None;
               options := opts; stream := None |}.

(** [httpServer.unref()] and [httpServer.shutdown()]. *)
Definition unref (h : nat) (d : Deno) : Deno :=
  {| has_serve := has_serve d; can_bind := can_bind d;
     servers := alter (fun s => {| hs_ref := false; hs_running := hs_running s |})
                  h (servers d);
     abort_listeners := abort_listeners d |}.

Definition shutdown (h : nat) (d : Deno) : Deno :=
  {| has_serve := has_serve d; can_bind := can_bind d;
     servers := alter (fun s => {| hs_ref := hs_ref s; hs_running := false |})
                  h (servers d);
     abort_listeners := abort_listeners d |}.

(** [serve({ handler, onListen, signal, ...options })]; [serve] is
    [undefined] on a platform without [Deno.serve]. *)
Definition serve (d : Deno) : Result nat * Deno :=
  if negb (has_serve d) then (Raised ServeUndefined, d)
  else if can_bind d then
    (Done (length (servers d)),
     {| has_serve := has_serve d; can_bind := can_bind d;
        servers := servers d ++ [{| hs_ref := true; hs_running := true |}];
        abort_listeners := abort_listeners d |})
  else (Raised AddrInUse, d).

(** [signal?.addEventListener("abort", () => this.close(), { once: true })]. *)
Definition add_abort_listener (opts : ServeOptions) (d : Deno) : Deno :=
  if has_signal opts then
    {| has_serve := has_serve d; can_bind := can_bind d; servers := servers d;
       abort_listeners := S (abort_listeners d) |}
  else d.

(** [close] (http_server_native.ts, lines 66-77), each call awaited before
    the next one is made. *)
Definition close (this : Server) (d : Deno) : Server * Deno :=
  if closed this then (this, d)
  else
    let '(this, d) :=
      match httpServer this with
      | Some h =>
          ({| app := app this; closed := closed this; httpServer := None;
              options := options this; stream := stream this |},
           shutdown h (unref h d))
      | None => (this, d)
      end in
    ({| app := app this; closed := true; httpServer := httpServer this;
        options := options this; stream := stream this |}, d).

(** [listen] (http_server_native.ts, lines 79-108).  The [start] of the new
    [ReadableStream] runs while the stream is constructed, so the server is
    started before [listen] returns; the result is the server whose address
    the returned promise resolves with. *)
Definition listen (this : Server) (d : Deno) : Result nat * Server * Deno :=
  match httpServer this with
  | Some _ => (Raised AlreadyListening, this, d)
  | None =>
      let d := add_abort_listener (options this) d in
      match serve d with
      | (Done h, d) =>
          (Done h,
           {| app := app this; closed := closed this; httpServer := Some h;
              options := options this;
              stream := Some {| rs_source := h; rs_locked := false |} |}, d)
      | (Raised f, d) => (Raised f, this, d)
      end
  end.

(** [[Symbol.asyncIterator]] (http_server_native.ts, lines 110-115).  The
    call [this.#stream[Symbol.asyncIterator]()] takes a reader of the
    stream: it throws when the stream is locked to a reader, and locks the
    stream otherwise.  The iterator keeps the stream until it is finished
    or returned, which no operation of this model does.  The result is the
    server whose requests the iterator delivers. *)
Definition asyncIterator (this : Server) : Result nat * Server :=
  match stream this with
  | None => (Raised NotListening, this)
  | Some s =>
      if rs_locked s then (Raised StreamLocked, this)
      else
        (Done (rs_source s),
         {| app := app this; closed := closed this;
            httpServer := httpServer this; options := options this;
            stream := Some {| rs_source := rs_source s; rs_locked := true |} |})
  end.

End NativeServer.

(** A platform with [Deno.serve] and one stopped server, a server object as
    the constructor makes it, and one that has listened and was closed. *)
Definition demo_deno : NativeServer.Deno :=
  {| NativeServer.has_serve := true; NativeServer.can_bind := true;
     NativeServer.servers :=
       [{| NativeServer.hs_ref := false; NativeServer.hs_running := false |}];
     NativeServer.abort_listeners := 0 |}.

Definition demo_server : NativeServer.Server :=
  {| NativeServer.app := 0; NativeServer.closed := false;
     NativeServer.httpServer := None;
     NativeServer.options :=
       {| NativeServer.has_signal := true; NativeServer.has_onListen := false |};
     NativeServer.stream := None |}.

Definition demo_closed_server : NativeServer.Server :=
  {| NativeServer.app := 0; NativeServer.closed := true;
     NativeServer.httpServer := None;
     NativeServer.options :=
       {| NativeServer.has_signal := true; NativeServer.has_onListen := false |};
     NativeServer.stream :=
       Some {| NativeServer.rs_source := 0; NativeServer.rs_locked := false |} |}.

(* ===================================================================== *)
(** ** The header models on the cases of the repository's tests *)
(* ===================================================================== *)

(** The cases with a literal parameter name of the test
    [headers - toParamRegExp()]. *)
Example toParamRegExp_cases :
  param_exec "foo" "foo=bar" = Some "bar"%string /\
  param_exec "foo" ("foo=" ++ quoted "bar") = Some (quoted "bar") /\
  param_exec "foo" ("bar=" ++ quoted "baz" ++ "; foo=bar") = Some "bar"%string /\
  param_exec "foo" "foobar=bar" = None.
Proof. repeat split. Qed.

(** The cases of the test [headers - unquote()]. *)
Example unquote_cases :
  unquote "bar" = "bar"%string /\ unquote (quoted "bar") = "bar"%string.
Proof. repeat split. Qed.

(** The constructor on the content type of a form delimited by [B]. *)
Example constructor_case :
  reader_of open_host "B" (encode_form "B" demo_form_file)
  = Ok (demo_reader (encode_form "B" demo_form_file)).
Proof. reflexivity. Qed.

(** The loops take their lines with [readLine]: the stripped line for the
    preamble and the field branch, the raw line for the file branch. *)
Lemma readToStartOrEnd_readLine (body : BufReader) (start end_ : bytes) :
  readToStartOrEnd body start end_
  = match readLine true body with
    | None => (Throw (BadRequest UnableToFindBoundary), [])
    | Some (line, body) =>
        if isEqual line start then (Ok true, body)
        else if isEqual line end_ then (Ok false, body)
        else readToStartOrEnd body start end_
    end.
Proof. by destruct body. Qed.

Lemma field_loop_readLine (host : Host) (o : PartsOptions) (nm : string)
    (lines : list string) (body : BufReader) :
  field_loop host o nm lines body
  = match readLine true body with
    | None => (Failed (BadRequest UnexpectedEOF), [])
    | Some (line, body) =>
        if isEqual line (part o) || isEqual line (final o) then
          (Yielded (nm, Field (String.concat NL lines)) (isEqual line (final o)),
           body)
        else field_loop host o nm (lines ++ [text_decode host line]) body
    end.
Proof. by destruct body. Qed.

Lemma file_loop_readLine_null (host : Host) (o : PartsOptions)
    (nm ctype orig : string) (v : FileVars) outPath w (body : BufReader) :
  readLine false body = None ->
  pr_end (file_loop host o nm ctype orig v outPath w body)
  = Failed (BadRequest UnexpectedEOF).
Proof. by destruct body. Qed.

(* ===================================================================== *)
(** ** Storage lemmas *)
(* ===================================================================== *)

Lemma byteLength_nonneg (b : bytes) : 0 <= byteLength b.
Proof. unfold byteLength. lia. Qed.

Lemma byteLength_app (a b : bytes) :
  byteLength (a ++ b) = byteLength a + byteLength b.
Proof. unfold byteLength. rewrite length_app. lia. Qed.

Lemma total_nil : total [] = 0.
Proof. reflexivity. Qed.

Lemma total_cons (l : bytes) (ls : list bytes) :
  total (l :: ls) = byteLength l + total ls.
Proof. unfold total. simpl. apply byteLength_app. Qed.

Lemma total_nonneg (ls : list bytes) : 0 <= total ls.
Proof. apply byteLength_nonneg. Qed.

Lemma with_files_same (w : World) : with_files w (w_files w) = w.
Proof. by destruct w. Qed.

Lemma writeAll_nil (file : nat) (w : World) : writeAll file [] w = w.
Proof.
  unfold writeAll. destruct (w_files w !! file) as [f|] eqn:E; [|done].
  rewrite app_nil_r. replace {| f_path := f_path f; f_data := f_data f;
    f_open := f_open f |} with f by (by destruct f).
  rewrite list_insert_id by done. apply with_files_same.
Qed.

Lemma writeAll_writeAll (file : nat) (a b : bytes) (w : World) :
  writeAll file b (writeAll file a w) = writeAll file (a ++ b) w.
Proof.
  unfold writeAll at 2 3. destruct (w_files w !! file) as [f|] eqn:E.
  - unfold writeAll, with_files. simpl.
    rewrite list_lookup_insert_eq by (by eapply lookup_lt_Some).
    simpl. rewrite list_insert_insert_eq, app_assoc. done.
  - unfold writeAll. by rewrite E.
Qed.

Lemma getFile_no_extension (host : Host) (prefix outPath : option string)
    (contentType : string) (w : World) :
  no_extension host contentType ->
  getFile host prefix outPath contentType w
  = (Throw (BadRequest InvalidMediaType), outPath, w).
Proof. unfold getFile. by intros [-> | ->]. Qed.

(** A successful [getFile] appends one empty, open file under a path that
    did not exist, and its handle is the position of that file. *)
Lemma getFile_ok (host : Host) (prefix outPath : option string)
    (contentType : string) (w : World) fn h outPath' w1 :
  getFile host prefix outPath contentType w = (Ok (fn, h), outPath', w1) ->
  h = length (w_files w) /\
  w_files w1 = w_files w ++ [{| f_path := fn; f_data := []; f_open := true |}] /\
  path_exists fn w = false /\
  w_log w1 = w_log w.
Proof.
  unfold getFile.
  destruct (extension host contentType) as [ext|]; [|done].
  destruct (String.eqb ext ""); [done|].
  destruct (truthy outPath).
  - simpl. unfold open_createNew. simpl.
    destruct (write_denied host _); [done|].
    match goal with |- context [path_exists ?p ?x] =>
      destruct (path_exists p x) eqn:E end; [done|].
    intros [= <- <- <- <-]. by unfold path_exists in *.
  - unfold makeTempDir. destruct (temp_denied host); [done|].
    simpl. unfold open_createNew. simpl.
    destruct (write_denied host _); [done|].
    match goal with |- context [path_exists ?p ?x] =>
      destruct (path_exists p x) eqn:E end; [done|].
    intros [= <- <- <- <-]. by unfold path_exists in *.
Qed.

Section Stored.

Variables (fs : list StoredFile) (fn : string) (data : bytes) (w1 : World).
Hypothesis created :
  w_files w1 = fs ++ [{| f_path := fn; f_data := []; f_open := true |}].

Lemma written_files :
  w_files (writeAll (length fs) data w1)
  = fs ++ [{| f_path := fn; f_data := data; f_open := true |}].
Proof.
  unfold writeAll. rewrite created.
  rewrite lookup_app_r, Nat.sub_diag by lia. simpl.
  rewrite insert_app_r_alt, Nat.sub_diag by lia. done.
Qed.

Lemma closed_files :
  w_files (close (length fs) (writeAll (length fs) data w1))
  = fs ++ [{| f_path := fn; f_data := data; f_open := false |}].
Proof.
  unfold close. rewrite written_files.
  rewrite lookup_app_r, Nat.sub_diag by lia. simpl.
  rewrite insert_app_r_alt, Nat.sub_diag by lia. done.
Qed.

Lemma closed_log :
  w_log (close (length fs) (writeAll (length fs) data w1)) = w_log w1.
Proof.
  unfold close, writeAll.
  repeat (match goal with |- context [match ?x with _ => _ end] => destruct x end;
          simpl); done.
Qed.

End Stored.

Lemma open_handles_closed (w w' : World) fn data :
  w_files w' = w_files w ++ [{| f_path := fn; f_data := data; f_open := false |}] ->
  open_handles w' = open_handles w.
Proof.
  unfold open_handles. intros ->. rewrite filter_app. simpl.
  rewrite filter_cons_False by (simpl; congruence).
  by rewrite filter_nil, app_nil_r.
Qed.

Lemma stored_at_new (w w' : World) fn data o :
  path_exists fn w = false ->
  w_files w' = w_files w ++ [{| f_path := fn; f_data := data; f_open := o |}] ->
  stored_at fn w' = Some data.
Proof.
  unfold stored_at, path_exists. intros Hno ->.
  induction (w_files w) as [|f fs IH]; simpl in *.
  - by rewrite String.eqb_refl.
  - apply orb_false_iff in Hno as [-> Hno]. by apply IH.
Qed.

(* ===================================================================== *)
(** ** The loop of the file branch *)
(* ===================================================================== *)

Section FileLoop.

Variable host : Host.
Variable o : PartsOptions.
Variables nm ctype orig : string.

Local Abbreviation loop := (file_loop host o nm ctype orig).

(** While the count stays within both limits the lines gather in memory. *)
Lemma file_loop_buffers (pre : list bytes) :
  forall (n : Z) (buf : bytes) outPath w body,
    Forall (content_line o) pre ->
    n + total pre <= maxFileSize o ->
    n + total pre <= maxSize o ->
    loop {| v_byteLength := n; v_file := None; v_filename := None;
            v_buf := Some buf |} outPath w (pre ++ body)
    = loop {| v_byteLength := n + total pre; v_file := None; v_filename := None;
              v_buf := Some (buf ++ concat pre) |} outPath w body.
Proof.
  induction pre as [|l pre IH]; intros n buf outPath w body Hc Hf Hm.
  - simpl. rewrite total_nil, Z.add_0_r, app_nil_r. done.
  - inversion_clear Hc as [|? ? Hl Hpre]. rewrite total_cons in Hf, Hm.
    pose proof (total_nonneg pre). pose proof (byteLength_nonneg l).
    cbn [app file_loop]. rewrite Hl. cbn [v_byteLength v_buf].
    destruct (Z.gtb_spec (n + byteLength l) (maxFileSize o)); [lia|].
    destruct (Z.gtb_spec (n + byteLength l) (maxSize o)); [lia|].
    cbn [v_file]. rewrite IH by (done || lia).
    rewrite total_cons. unfold append. cbn [concat].
    by rewrite Z.add_assoc, <- (app_assoc buf).
Qed.

(** Once a storage file is open every line is appended to it. *)
Lemma file_loop_appends (pre : list bytes) :
  forall (n : Z) (file : nat) (fname : option string) outPath w body,
    Forall (content_line o) pre ->
    n + total pre <= maxFileSize o ->
    loop {| v_byteLength := n; v_file := Some file; v_filename := fname;
            v_buf := None |} outPath w (pre ++ body)
    = loop {| v_byteLength := n + total pre; v_file := Some file;
              v_filename := fname; v_buf := None |}
        outPath (writeAll file (concat pre) w) body.
Proof.
  induction pre as [|l pre IH]; intros n file fname outPath w body Hc Hf.
  - simpl. by rewrite total_nil, Z.add_0_r, writeAll_nil.
  - inversion_clear Hc as [|? ? Hl Hpre]. rewrite total_cons in Hf.
    pose proof (total_nonneg pre). pose proof (byteLength_nonneg l).
    cbn [app file_loop]. rewrite Hl. cbn [v_byteLength v_buf].
    destruct (Z.gtb_spec (n + byteLength l) (maxFileSize o)); [lia|].
    cbn [v_file v_filename]. rewrite IH by (done || lia).
    rewrite total_cons. cbn [concat].
    by rewrite Z.add_assoc, writeAll_writeAll.
Qed.

(** The line on which the count passes [maxSize] within [maxFileSize]: the
    storage file is asked for, and on success the buffer and the line go to
    it. *)
Lemma file_loop_spills (n : Z) (buf l : bytes) outPath w body :
  content_line o l ->
  n + byteLength l <= maxFileSize o ->
  maxSize o < n + byteLength l ->
  loop {| v_byteLength := n; v_file := None; v_filename := None;
          v_buf := Some buf |} outPath w (l :: body)
  = match getFile host (prefix o) outPath ctype w with
    | (Ok (fname, file), outPath, w) =>
        loop {| v_byteLength := n + byteLength l; v_file := Some file;
                v_filename := Some fname; v_buf := None |}
          outPath (writeAll file (buf ++ l) w) body
    | (Throw e, outPath, w) => failed e outPath w body
    end.
Proof.
  intros Hl Hf Hm. cbn [file_loop]. rewrite Hl.
  cbn [v_byteLength v_buf].
  destruct (Z.gtb_spec (n + byteLength l) (maxFileSize o)); [lia|].
  destruct (Z.gtb_spec (n + byteLength l) (maxSize o)); [|lia].
  destruct (getFile host (prefix o) outPath ctype w) as [[[[fname file]|e] op] w1].
  - cbn [v_file]. by rewrite writeAll_writeAll.
  - done.
Qed.

(** The line on which the count passes [maxFileSize]. *)
Lemma file_loop_too_large (v : FileVars) (l : bytes) outPath w body :
  content_line o l ->
  maxFileSize o < v_byteLength v + byteLength l ->
  loop v outPath w (l :: body)
  = {| pr_end := Failed (RequestEntityTooLarge (maxFileSize o));
       pr_outPath := outPath; pr_world := close_if (v_file v) w;
       pr_body := body |}.
Proof.
  intros Hl Hf. cbn [file_loop]. rewrite Hl.
  destruct (Z.gtb_spec (v_byteLength v + byteLength l) (maxFileSize o)); [done|lia].
Qed.

(** A marker line ends the part. *)
Lemma file_loop_boundary (v : FileVars) (l : bytes) outPath w body :
  is_boundary o (stripEol l) = true ->
  loop v outPath w (l :: body)
  = {| pr_end :=
         Yielded (nm, File {| content := v_buf v; contentType := ctype;
                              name := nm; filename := v_filename v;
                              originalName := orig |})
                 (isEqual (stripEol l) (final o));
       pr_outPath := outPath; pr_world := close_if (v_file v) w;
       pr_body := body |}.
Proof. intros Hl. cbn [file_loop]. by rewrite Hl. Qed.

(** A positive [maxSize] that the lines exceed is passed on one line. *)
Lemma first_crossing (limit : Z) (lines : list bytes) :
  0 <= limit -> limit < total lines ->
  exists pre l post,
    lines = pre ++ l :: post /\
    total pre <= limit /\ limit < total pre + byteLength l.
Proof.
  intros Hpos. induction lines as [|l lines IH] using rev_ind; intros Hlt.
  - rewrite total_nil in Hlt. lia.
  - destruct (Z.le_gt_cases (total lines) limit) as [Hle|Hgt].
    + exists lines, l, []. split; [done|]. split; [done|].
      unfold total in *. rewrite concat_app, byteLength_app in Hlt.
      simpl in Hlt. rewrite app_nil_r in Hlt. done.
    + destruct (IH Hgt) as (pre & l' & post & -> & ? & ?).
      exists pre, l', (post ++ [l]). by rewrite <- app_assoc.
Qed.

Lemma total_app (a b : list bytes) : total (a ++ b) = total a + total b.
Proof. unfold total. by rewrite concat_app, byteLength_app. Qed.

(** What the loop has done once the lines [pre] are behind it, whether or not
    the storage file had to be made on the way. *)
Lemma file_loop_prefix (pre : list bytes) :
  forall (n : Z) (buf : bytes) outPath w body fname file outPath1 w1,
    getFile host (prefix o) outPath ctype w = (Ok (fname, file), outPath1, w1) ->
    Forall (content_line o) pre ->
    n + total pre <= maxFileSize o ->
    loop {| v_byteLength := n; v_file := None; v_filename := None;
            v_buf := Some buf |} outPath w (pre ++ body)
    = loop {| v_byteLength := n + total pre; v_file := None; v_filename := None;
              v_buf := Some (buf ++ concat pre) |} outPath w body
    \/
    loop {| v_byteLength := n; v_file := None; v_filename := None;
            v_buf := Some buf |} outPath w (pre ++ body)
    = loop {| v_byteLength := n + total pre; v_file := Some file;
              v_filename := Some fname; v_buf := None |}
        outPath1 (writeAll file (buf ++ concat pre) w1) body.
Proof.
  induction pre as [|l pre IH];
    intros n buf outPath w body fname file outPath1 w1 Hget Hc Hf.
  - left. simpl. by rewrite total_nil, Z.add_0_r, app_nil_r.
  - inversion_clear Hc as [|? ? Hl Hpre]. rewrite total_cons in Hf.
    pose proof (total_nonneg pre). pose proof (byteLength_nonneg l).
    rewrite total_cons, Z.add_assoc. cbn [concat]. rewrite (app_assoc buf).
    destruct (Z.le_gt_cases (n + byteLength l) (maxSize o)) as [Hm|Hm].
    + change ((l :: pre) ++ body) with ([l] ++ (pre ++ body)).
      rewrite (file_loop_buffers [l] n buf outPath w (pre ++ body)).
      * rewrite total_cons, total_nil, Z.add_0_r. cbn [concat].
        rewrite app_nil_r. eapply IH; eauto. lia.
      * by constructor.
      * rewrite total_cons, total_nil. lia.
      * rewrite total_cons, total_nil. lia.
    + right. cbn [app]. rewrite file_loop_spills by (done || lia).
      rewrite Hget, file_loop_appends by (done || lia).
      by rewrite writeAll_writeAll.
Qed.

End FileLoop.

(** A file part that stays within a positive [maxSize] is yielded from
    memory and leaves the storage alone. *)
Lemma file_part_in_memory (host : Host) (o : PartsOptions)
    (nm ctype disp : string) outPath w (lines : list bytes) marker rest :
  maxSize o <> 0 ->
  Forall (content_line o) lines ->
  is_boundary o (stripEol marker) = true ->
  total lines <= maxFileSize o ->
  total lines <= maxSize o ->
  file_part host o nm ctype disp outPath w (lines ++ marker :: rest)
  = {| pr_end :=
         Yielded (nm, File {| content := Some (concat lines); contentType := ctype;
                              name := nm; filename := None;
                              originalName := getFilename disp |})
                 (isEqual (stripEol marker) (final o));
       pr_outPath := outPath; pr_world := w; pr_body := rest |}.
Proof.
  intros Hm Hc Hb Hf Hs. unfold file_part.
  destruct (Z.eqb_spec (maxSize o) 0); [done|]. cbn [negb].
  rewrite file_loop_buffers by (done || lia).
  by rewrite file_loop_boundary.
Qed.

(* ===================================================================== *)
(** ** File parts: memory, storage and the two limits *)
(* ===================================================================== *)

(** C3. A file part decoded under a positive in-memory ceiling [maxSize]:
    when the byte count of its lines stays within the ceiling, the yielded
    file has the accumulated bytes as its content and no storage path, and
    the storage is untouched; when the count exceeds the ceiling, exactly
    one storage file is created, the yielded file has the path of that file
    and no content, and the file, closed, holds all the bytes of the part. *)
Theorem file_part_memory_or_storage (host : Host) (o : PartsOptions)
    (nm ctype disp : string) outPath w (lines : list bytes) marker rest :
  0 < maxSize o ->
  Forall (content_line o) lines ->
  is_boundary o (stripEol marker) = true ->
  total lines <= maxFileSize o ->
  let r := file_part host o nm ctype disp outPath w (lines ++ marker :: rest) in
  (total lines <= maxSize o ->
   r = {| pr_end :=
            Yielded (nm, File {| content := Some (concat lines);
                                 contentType := ctype; name := nm;
                                 filename := None;
                                 originalName := getFilename disp |})
                    (isEqual (stripEol marker) (final o));
          pr_outPath := outPath; pr_world := w; pr_body := rest |}) /\
  (maxSize o < total lines ->
   forall fname file outPath1 w1,
     getFile host (prefix o) outPath ctype w = (Ok (fname, file), outPath1, w1) ->
     pr_end r
     = Yielded (nm, File {| content := None; contentType := ctype; name := nm;
                            filename := Some fname;
                            originalName := getFilename disp |})
               (isEqual (stripEol marker) (final o)) /\
     pr_body r = rest /\
     w_files (pr_world r)
     = w_files w ++ [{| f_path := fname; f_data := concat lines; f_open := false |}] /\
     stored_at fname (pr_world r) = Some (concat lines)).
Proof.
  intros Hpos Hc Hb Hf r. split.
  - intros Hs. apply file_part_in_memory; (done || lia).
  - intros Hs fname file outPath1 w1 Hget.
    destruct (getFile_ok _ _ _ _ _ _ _ _ _ Hget) as (-> & Hfiles & Hnew & _).
    destruct (first_crossing (maxSize o) lines) as (pre & l & post & -> & Hle & Hgt);
      [lia | done |].
    apply Forall_app in Hc as [Hpre Hc]. inversion_clear Hc as [|? ? Hl Hpost].
    rewrite total_app, total_cons in Hf.
    pose proof (total_nonneg post). pose proof (total_nonneg pre).
    pose proof (byteLength_nonneg l).
    assert (r = {| pr_end :=
                     Yielded (nm, File {| content := None; contentType := ctype;
                                          name := nm; filename := Some fname;
                                          originalName := getFilename disp |})
                             (isEqual (stripEol marker) (final o));
                   pr_outPath := outPath1;
                   pr_world := close (length (w_files w))
                                 (writeAll (length (w_files w))
                                    (concat (pre ++ l :: post)) w1);
                   pr_body := rest |}) as ->.
    { subst r. unfold file_part.
      destruct (Z.eqb_spec (maxSize o) 0); [lia|]. cbn [negb].
      rewrite <- app_assoc. rewrite file_loop_buffers by (done || lia).
      cbn [app]. rewrite file_loop_spills by (done || lia). rewrite Hget.
      rewrite file_loop_appends by (done || lia).
      rewrite file_loop_boundary by done. cbn [v_file v_buf v_filename close_if].
      rewrite writeAll_writeAll, concat_app. cbn [concat].
      by rewrite <- app_assoc. }
    cbn [pr_end pr_body pr_world].
    pose proof (closed_files _ _ (concat (pre ++ l :: post)) _ Hfiles) as Hclosed.
    repeat split; [done|]. eapply stored_at_new; eauto.
Qed.

Lemma file_part_memory_or_storage_witness :
  let r := file_part open_host (demo_options 3 100) "f" "text/plain" "form-data"
             None empty_world [line "ab"; line "cd"; line "--B--"] in
  pr_end r
  = Yielded ("f"%string,
             File {| content := None; contentType := "text/plain"; name := "f";
                     filename := Some "/tmp/d/x.txt"%string;
                     originalName := getFilename "form-data" |})
            (isEqual (stripEol (line "--B--")) (final (demo_options 3 100))) /\
  pr_body r = [] /\
  w_files (pr_world r)
  = w_files empty_world ++
    [{| f_path := "/tmp/d/x.txt"; f_data := concat [line "ab"; line "cd"];
        f_open := false |}] /\
  stored_at "/tmp/d/x.txt" (pr_world r) = Some (concat [line "ab"; line "cd"]).
Proof.
  refine (proj2 (file_part_memory_or_storage open_host (demo_options 3 100)
            "f" "text/plain" "form-data" None empty_world
            [line "ab"; line "cd"] (line "--B--") [] _ _ _ _) _
            "/tmp/d/x.txt"%string 0%nat (Some "/tmp/d"%string) _ _).
  - reflexivity.
  - repeat constructor.
  - reflexivity.
  - vm_compute. discriminate.
  - reflexivity.
  - reflexivity.
Defined.

(** C4. A file part whose byte count passes [maxFileSize] on a line that
    comes before any marker fails with [RequestEntityTooLarge] on that very
    line: the lines behind it are left unread, and the storage file of the
    part, when one was opened, is closed, so that no handle stays open.  The
    storage file is either not needed before that line or can be created. *)
Theorem file_part_too_large (host : Host) (o : PartsOptions)
    (nm ctype disp : string) outPath w (pre : list bytes) l rest :
  Forall (content_line o) pre ->
  content_line o l ->
  total pre <= maxFileSize o ->
  maxFileSize o < total pre + byteLength l ->
  (maxSize o <> 0 /\ total pre <= maxSize o) \/
  (exists fname file outPath1 w1,
     getFile host (prefix o) outPath ctype w = (Ok (fname, file), outPath1, w1)) ->
  let r := file_part host o nm ctype disp outPath w (pre ++ l :: rest) in
  pr_end r = Failed (RequestEntityTooLarge (maxFileSize o)) /\
  pr_body r = rest /\
  open_handles (pr_world r) = open_handles w.
Proof.
  intros Hpre Hl Hle Hgt Hstore r. subst r. unfold file_part.
  destruct (Z.eqb_spec (maxSize o) 0) as [Hz|Hnz]; cbn [negb].
  - destruct Hstore as [[? _]|(fname & file & outPath1 & w1 & Hget)]; [done|].
    destruct (getFile_ok _ _ _ _ _ _ _ _ _ Hget) as (-> & Hfiles & _ & _).
    rewrite Hget, file_loop_appends by (done || lia).
    rewrite file_loop_too_large by (done || (cbn; lia)).
    cbn [pr_end pr_body pr_world v_file close_if]. repeat split.
    eapply open_handles_closed, closed_files; eauto.
  - destruct Hstore as [[_ Hmem]|(fname & file & outPath1 & w1 & Hget)].
    + rewrite file_loop_buffers by (done || lia).
      by rewrite file_loop_too_large by (done || (cbn; lia)).
    + destruct (getFile_ok _ _ _ _ _ _ _ _ _ Hget) as (-> & Hfiles & _ & _).
      destruct (file_loop_prefix host o nm ctype (getFilename disp) pre 0 []
                  outPath w (l :: rest) _ _ _ _ Hget Hpre) as [-> | ->]; [lia| |].
      * by rewrite file_loop_too_large by (done || (cbn; lia)).
      * rewrite file_loop_too_large by (done || (cbn; lia)).
        cbn [pr_end pr_body pr_world v_file close_if]. repeat split.
        eapply open_handles_closed, closed_files; eauto.
Qed.

Lemma file_part_too_large_witness :
  let r := file_part open_host (demo_options 0 5) "f" "text/plain" "form-data"
             None empty_world [line "ab"; line "cd"; line "ef"; line "--B--"] in
  pr_end r = Failed (RequestEntityTooLarge (maxFileSize (demo_options 0 5))) /\
  pr_body r = [line "ef"; line "--B--"] /\
  open_handles (pr_world r) = open_handles empty_world.
Proof.
  refine (file_part_too_large open_host (demo_options 0 5) "f" "text/plain"
            "form-data" None empty_world [line "ab"] (line "cd")
            [line "ef"; line "--B--"] _ _ _ _ _).
  - repeat constructor.
  - reflexivity.
  - vm_compute. discriminate.
  - reflexivity.
  - right. exists "/tmp/d/x.txt"%string, 0%nat, (Some "/tmp/d"%string).
    eexists. reflexivity.
Defined.

(** C9. Whether a content type without a file extension is accepted depends
    on the storage policy.  With [maxSize] at 0 the file part fails with the
    bad request [InvalidMediaType] before any of its lines is read; under a
    positive [maxSize] it fails so on the line on which its byte count
    passes [maxSize] within [maxFileSize]; and the same part is yielded from
    memory when its byte count stays within a positive [maxSize] and within
    [maxFileSize]. *)
Theorem invalid_media_type_by_storage_policy (host : Host) (o : PartsOptions)
    (nm ctype disp : string) outPath w :
  no_extension host ctype ->
  (maxSize o = 0 ->
   forall body,
     file_part host o nm ctype disp outPath w body
     = failed (BadRequest InvalidMediaType) outPath w body) /\
  (0 < maxSize o ->
   forall pre l rest,
     Forall (content_line o) pre ->
     content_line o l ->
     total pre <= maxSize o ->
     maxSize o < total pre + byteLength l ->
     total pre + byteLength l <= maxFileSize o ->
     file_part host o nm ctype disp outPath w (pre ++ l :: rest)
     = failed (BadRequest InvalidMediaType) outPath w rest) /\
  (0 < maxSize o ->
   forall lines marker rest,
     Forall (content_line o) lines ->
     is_boundary o (stripEol marker) = true ->
     total lines <= maxSize o ->
     total lines <= maxFileSize o ->
     file_part host o nm ctype disp outPath w (lines ++ marker :: rest)
     = {| pr_end :=
            Yielded (nm, File {| content := Some (concat lines);
                                 contentType := ctype; name := nm;
                                 filename := None;
                                 originalName := getFilename disp |})
                    (isEqual (stripEol marker) (final o));
          pr_outPath := outPath; pr_world := w; pr_body := rest |}).
Proof.
  intros Hext. repeat split.
  - intros Hz body. unfold file_part. rewrite Hz. cbn [Z.eqb negb].
    by rewrite getFile_no_extension.
  - intros Hpos pre l rest Hpre Hl Hle Hgt Hf. unfold file_part.
    pose proof (byteLength_nonneg l).
    destruct (Z.eqb_spec (maxSize o) 0); [lia|]. cbn [negb].
    rewrite file_loop_buffers by (done || lia).
    rewrite file_loop_spills by (done || lia).
    by rewrite getFile_no_extension.
  - intros Hpos lines marker rest Hc Hb Hs Hf.
    apply file_part_in_memory; (done || lia).
Qed.

Lemma invalid_media_type_by_storage_policy_witness :
  file_part open_host (demo_options 0 100) "f" "application/x-oak" "form-data"
    None empty_world [line "a"; line "--B--"]
  = failed (BadRequest InvalidMediaType) None empty_world [line "a"; line "--B--"] /\
  file_part open_host (demo_options 3 100) "f" "application/x-oak" "form-data"
    None empty_world ([line "a"] ++ line "b" :: [line "--B--"])
  = failed (BadRequest InvalidMediaType) None empty_world [line "--B--"] /\
  pr_end (file_part open_host (demo_options 9 100) "f" "application/x-oak"
            "form-data" None empty_world ([line "a"; line "b"] ++ line "--B--" :: []))
  = Yielded ("f"%string,
             File {| content := Some (concat [line "a"; line "b"]);
                     contentType := "application/x-oak"; name := "f";
                     filename := None; originalName := getFilename "form-data" |})
            (isEqual (stripEol (line "--B--")) (final (demo_options 9 100))).
Proof.
  assert (no_extension open_host "application/x-oak") as Hext by (left; reflexivity).
  split; [|split].
  - refine (proj1 (invalid_media_type_by_storage_policy open_host
             (demo_options 0 100) "f" "application/x-oak" "form-data" None
             empty_world Hext) _ [line "a"; line "--B--"]).
    reflexivity.
  - refine (proj1 (proj2 (invalid_media_type_by_storage_policy open_host
             (demo_options 3 100) "f" "application/x-oak" "form-data" None
             empty_world Hext)) _ [line "a"] (line "b") [line "--B--"] _ _ _ _ _).
    + reflexivity.
    + repeat constructor.
    + reflexivity.
    + vm_compute. discriminate.
    + reflexivity.
    + vm_compute. discriminate.
  - refine (f_equal pr_end (proj2 (proj2 (invalid_media_type_by_storage_policy
             open_host (demo_options 9 100) "f" "application/x-oak" "form-data"
             None empty_world Hext)) _ [line "a"; line "b"] (line "--B--") [] _ _ _ _)).
    + reflexivity.
    + repeat constructor.
    + reflexivity.
    + vm_compute. discriminate.
    + vm_compute. discriminate.
Defined.

(* ===================================================================== *)
(** ** Field parts *)
(* ===================================================================== *)

Lemma field_loop_lines (host : Host) (o : PartsOptions) (nm : string)
    (lines : list bytes) :
  forall (acc : list string) marker rest,
    Forall (content_line o) lines ->
    is_boundary o (stripEol marker) = true ->
    field_loop host o nm acc (lines ++ marker :: rest)
    = (Yielded (nm, Field (String.concat NL
                  (acc ++ map (fun l => text_decode host (stripEol l)) lines)))
               (isEqual (stripEol marker) (final o)),
       rest).
Proof.
  induction lines as [|l lines IH]; intros acc marker rest Hc Hb.
  - cbn [app field_loop map]. by rewrite Hb, app_nil_r.
  - inversion_clear Hc as [|? ? Hl Hlines]. cbn [app field_loop map].
    rewrite Hl, IH by done. by rewrite <- app_assoc.
Qed.

(** The field loop fails in one way only, at the end of the stream. *)
Lemma field_loop_failure (host : Host) (o : PartsOptions) (nm : string)
    (body : BufReader) :
  forall acc e,
    (field_loop host o nm acc body).1 = Failed e -> e = BadRequest UnexpectedEOF.
Proof.
  induction body as [|raw body IH]; intros acc e; cbn [field_loop].
  - by intros [= <-].
  - destruct (is_boundary o (stripEol raw)); [done|]. apply IH.
Qed.

Lemma field_loop_maxFileSize (host : Host) (o : PartsOptions) (nm : string)
    (limit : Z) (body : BufReader) :
  forall acc,
    field_loop host (with_maxFileSize limit o) nm acc body
    = field_loop host o nm acc body.
Proof.
  induction body as [|raw body IH]; intros acc; cbn [field_loop]; [done|].
  by rewrite IH.
Qed.

(** C5. The value of a field part is made of the lines between its header
    block and the next marker, each without its end of line, joined by one
    newline character: no newline follows the last line, so the line break
    in front of the marker is not in the value. *)
Theorem field_value_joins_lines (host : Host) (o : PartsOptions) (nm : string)
    (lines : list bytes) marker rest :
  Forall (content_line o) lines ->
  is_boundary o (stripEol marker) = true ->
  field_loop host o nm [] (lines ++ marker :: rest)
  = (Yielded (nm, Field (String.concat (String (ascii_of_nat 10) EmptyString)
                (map (fun l => text_decode host (stripEol l)) lines)))
             (isEqual (stripEol marker) (final o)),
     rest).
Proof. intros Hc Hb. by rewrite field_loop_lines. Qed.

Lemma field_value_joins_lines_witness :
  field_loop open_host (demo_options 0 100) "n" []
    ([line "a"; line "b"] ++ line "--B" :: [])
  = (Yielded ("n"%string,
              Field (String "a"%char
                       (String (ascii_of_nat 10) (String "b"%char EmptyString))))
             false, []).
Proof.
  refine (field_value_joins_lines open_host (demo_options 0 100) "n"
            [line "a"; line "b"] (line "--B") [] _ _).
  - repeat constructor.
  - reflexivity.
Defined.

(** C10. [maxFileSize] bounds file parts only.  A part without a content
    type never fails with [RequestEntityTooLarge]; what its decoding gives
    does not depend on [maxFileSize]; and when its headers are in order and
    a marker follows its lines, the part is yielded with all of its lines,
    however many bytes they have and whatever [maxFileSize] is. *)
Theorem field_part_has_no_size_limit (host : Host) (o : PartsOptions)
    outPath w (body body' : BufReader) (headers : gmap string string) :
  readHeaders host ∅ body = (Ok headers, body') ->
  truthy (headers !! "content-type"%string) = false ->
  (forall limit,
     pr_end (one_part host o outPath w body) <> Failed (RequestEntityTooLarge limit)) /\
  (forall limit,
     one_part host (with_maxFileSize limit o) outPath w body
     = one_part host o outPath w body) /\
  (forall disp matched lines marker rest,
     headers !! "content-disposition"%string = Some disp ->
     disp <> ""%string ->
     is_form_data disp = true ->
     param_exec "name" disp = Some matched ->
     body' = lines ++ marker :: rest ->
     Forall (content_line o) lines ->
     is_boundary o (stripEol marker) = true ->
     one_part host o outPath w body
     = {| pr_end :=
            Yielded (unquote matched,
                     Field (String.concat NL
                       (map (fun l => text_decode host (stripEol l)) lines)))
                    (isEqual (stripEol marker) (final o));
          pr_outPath := outPath; pr_world := w; pr_body := rest |}).
Proof.
  intros Hh Hct. repeat split.
  - intros limit. unfold one_part. rewrite Hh, Hct.
    destruct (negb (truthy _)); [done|].
    destruct (negb (is_form_data _)); [done|].
    destruct (param_exec _ _); [|done].
    destruct (field_loop _ _ _ _ _) as [e b] eqn:E. cbn [pr_end].
    intros ->. by apply (f_equal fst), field_loop_failure in E.
  - intros limit. unfold one_part. rewrite Hh, Hct.
    destruct (param_exec _ _); [|done]. by rewrite field_loop_maxFileSize.
  - intros disp matched lines marker rest Hd Hne Hform Hname -> Hc Hb.
    unfold one_part. rewrite Hh, Hct, Hd. cbn [truthy default from_option id].
    apply String.eqb_neq in Hne. rewrite Hne. cbn [negb].
    rewrite Hform, Hname. cbn [negb]. by rewrite field_loop_lines.
Qed.

Lemma field_part_has_no_size_limit_witness :
  one_part open_host (demo_options 0 0) None empty_world
    (demo_field_head ++ [line "a long value"; line "of two lines"; line "--B--"])
  = {| pr_end := Yielded ("a"%string, Field ("a long value" ++ NL ++ "of two lines")) true;
       pr_outPath := None; pr_world := empty_world; pr_body := [] |}.
Proof.
  refine (proj2 (proj2 (field_part_has_no_size_limit open_host (demo_options 0 0)
            None empty_world
            (demo_field_head ++ [line "a long value"; line "of two lines"; line "--B--"])
            [line "a long value"; line "of two lines"; line "--B--"]
            demo_field_headers _ _))
            ("form-data; name=" ++ quoted "a")%string (quoted "a")
            [line "a long value"; line "of two lines"] (line "--B--") []
            _ _ _ _ _ _ _).
  - vm_compute. reflexivity.
  - reflexivity.
  - reflexivity.
  - discriminate.
  - reflexivity.
  - reflexivity.
  - reflexivity.
  - repeat constructor.
  - reflexivity.
Defined.

(* ===================================================================== *)
(** ** The outer loop of [parts] ends *)
(* ===================================================================== *)

Lemma readHeaders_shrinks (host : Host) (body : BufReader) :
  forall headers res body',
    readHeaders host headers body = (res, body') -> (length body' <= length body)%nat.
Proof.
  induction body as [|raw body IH]; intros headers res body'; cbn [readHeaders].
  - intros [= <- <-]. done.
  - destruct (stripEol raw) as [|b bs]; [intros [= <- <-]; simpl; lia|].
    destruct (split_at_colon [] (b :: bs)) as [[k v]|];
      [|intros [= <- <-]; simpl; lia].
    destruct (String.eqb _ _); [intros [= <- <-]; simpl; lia|].
    intros H. apply IH in H. simpl. lia.
Qed.

Lemma file_loop_shrinks (host : Host) (o : PartsOptions) (nm ctype orig : string)
    (body : BufReader) :
  forall v outPath w p fin,
    pr_end (file_loop host o nm ctype orig v outPath w body) = Yielded p fin ->
    (length (pr_body (file_loop host o nm ctype orig v outPath w body))
     < length body)%nat.
Proof.
  induction body as [|l body IH]; intros v outPath w p fin; cbn [file_loop].
  - done.
  - destruct (is_boundary o (stripEol l)); [simpl; lia|].
    destruct (_ >? maxFileSize o); [done|].
    match goal with |- context [match ?x with (_, _) => _ end] =>
      destruct x as [[[v'|e] op] w'] end; [|done].
    intros H. apply IH in H. simpl. lia.
Qed.

Lemma field_loop_shrinks (host : Host) (o : PartsOptions) (nm : string)
    (body : BufReader) :
  forall acc p fin,
    (field_loop host o nm acc body).1 = Yielded p fin ->
    (length (field_loop host o nm acc body).2 < length body)%nat.
Proof.
  induction body as [|l body IH]; intros acc p fin; cbn [field_loop].
  - done.
  - destruct (is_boundary o (stripEol l)); [simpl; lia|].
    intros H. apply IH in H. simpl. lia.
Qed.

(** A turn of the outer loop that yields a part has read at least a line. *)
Lemma one_part_shrinks (host : Host) (o : PartsOptions) outPath w body p fin :
  pr_end (one_part host o outPath w body) = Yielded p fin ->
  (length (pr_body (one_part host o outPath w body)) < length body)%nat.
Proof.
  unfold one_part.
  destruct (readHeaders host ∅ body) as [[headers|e] body'] eqn:Hh; [|done].
  apply readHeaders_shrinks in Hh.
  destruct (negb (truthy _)); [done|].
  destruct (negb (is_form_data _)); [done|].
  destruct (param_exec _ _) as [matched|]; [|done].
  destruct (truthy (headers !! "content-type"%string)).
  - unfold file_part. destruct (negb _).
    + intros H. apply file_loop_shrinks in H. lia.
    + destruct (getFile _ _ _ _ _) as [[[[fname file]|e] op] w1]; [|done].
      intros H. apply file_loop_shrinks in H. lia.
  - destruct (field_loop _ _ _ _ _) as [e b] eqn:E. cbn [pr_end pr_body].
    intros H. pose proof (field_loop_shrinks host o (unquote matched) body' [] p fin) as Hs.
    rewrite E in Hs. specialize (Hs H). simpl in Hs. lia.
Qed.

Lemma parts_turns_enough (host : Host) (o : PartsOptions) (turns : nat) :
  forall outPath w body,
    (length body < turns)%nat ->
    is_Some (parts_turns host turns o outPath w body).
Proof.
  induction turns as [|turns IH]; intros outPath w body Hlen; [lia|].
  cbn [parts_turns].
  destruct (pr_end (one_part host o outPath w body)) as [p [|]|e] eqn:E; [done| |done].
  apply one_part_shrinks in E.
  destruct (IH (pr_outPath (one_part host o outPath w body))
               (pr_world (one_part host o outPath w body))
               (pr_body (one_part host o outPath w body))) as [g ->]; [lia|].
  done.
Qed.

(** More turns than the loop needs change nothing. *)
Lemma parts_turns_stable (host : Host) (o : PartsOptions) (turns : nat) :
  forall outPath w body g more,
    parts_turns host turns o outPath w body = Some g ->
    parts_turns host (turns + more) o outPath w body = Some g.
Proof.
  induction turns as [|turns IH]; intros outPath w body g more; [done|].
  cbn [parts_turns Nat.add].
  destruct (pr_end (one_part host o outPath w body)) as [p [|]|e]; [done| |done].
  destruct (parts_turns host turns o _ _ _) as [g'|] eqn:E; [|done].
  by rewrite (IH _ _ _ _ more E).
Qed.

(** [parts_from] is the run of the outer loop: the loop ends within the
    turns that [parts_from] allows it. *)
Lemma parts_ends (host : Host) (o : PartsOptions) outPath (w : World)
    (body : BufReader) :
  parts_turns host (S (length body)) o outPath w body
  = Some (parts_from host o outPath w body).
Proof.
  unfold parts_from.
  destruct (parts_turns_enough host o (S (length body)) outPath w body) as [g ->];
    [lia|done].
Qed.

(** The equation of the outer loop (multipart.ts, lines 141-244): a failed
    turn ends the generator with its error, a part that ends on the final
    marker is the last one, and behind any other part the loop goes on with
    what the turn has left. *)
Lemma parts_from_unfold (host : Host) (o : PartsOptions) outPath (w : World)
    (body : BufReader) :
  parts_from host o outPath w body
  = let r := one_part host o outPath w body in
    match pr_end r with
    | Failed e =>
        {| g_parts := []; g_thrown := Some e; g_world := pr_world r;
           g_body := pr_body r |}
    | Yielded p true =>
        {| g_parts := [p]; g_thrown := None; g_world := pr_world r;
           g_body := pr_body r |}
    | Yielded p false =>
        yield_first p (parts_from host o (pr_outPath r) (pr_world r) (pr_body r))
    end.
Proof.
  cbv zeta.
  pose proof (parts_ends host o outPath w body) as Hrun.
  cbn [parts_turns] in Hrun.
  destruct (pr_end (one_part host o outPath w body)) as [p [|]|e] eqn:E;
    [by injection Hrun| |by injection Hrun].
  pose proof (one_part_shrinks _ _ _ _ _ _ _ E) as Hlt.
  pose proof (parts_ends host o (pr_outPath (one_part host o outPath w body))
                (pr_world (one_part host o outPath w body))
                (pr_body (one_part host o outPath w body))) as Hrest.
  apply (parts_turns_stable _ _ _ _ _ _ _
           (length body - S (length (pr_body (one_part host o outPath w body)))))
    in Hrest.
  replace (S (length (pr_body (one_part host o outPath w body))) +
           (length body - S (length (pr_body (one_part host o outPath w body)))))%nat
    with (length body) in Hrest by lia.
  rewrite Hrest in Hrun. by injection Hrun.
Qed.

(** A turn whose headers are in order and name a content type is the file
    branch, and a turn that fails ends the generator with its error. *)
Lemma one_part_file (host : Host) (o : PartsOptions) outPath w
    (body body' : BufReader) (headers : gmap string string)
    (disp ctype matched : string) :
  readHeaders host ∅ body = (Ok headers, body') ->
  headers !! "content-disposition"%string = Some disp ->
  disp <> ""%string ->
  is_form_data disp = true ->
  param_exec "name" disp = Some matched ->
  headers !! "content-type"%string = Some ctype ->
  ctype <> ""%string ->
  one_part host o outPath w body
  = file_part host o (unquote matched) ctype disp outPath w body'.
Proof.
  intros Hh Hd Hne Hform Hname Hct Hcne. unfold one_part.
  rewrite Hh, Hd, Hct. cbn [truthy default from_option id].
  apply String.eqb_neq in Hne, Hcne. by rewrite Hne, Hcne, Hform, Hname.
Qed.

Lemma parts_from_failed (host : Host) (o : PartsOptions) outPath w body e :
  pr_end (one_part host o outPath w body) = Failed e ->
  g_parts (parts_from host o outPath w body) = [] /\
  g_thrown (parts_from host o outPath w body) = Some e.
Proof. intros E. rewrite parts_from_unfold. cbv zeta. by rewrite E. Qed.

(* ===================================================================== *)
(** ** The preamble *)
(* ===================================================================== *)




(* ===================================================================== *)
(** ** The buffering consumption *)
(* ===================================================================== *)

Lemma omap_step {A B : Type} (f : A -> option B) (x : A) (l : list A) :
  omap f (x :: l) = match f x with Some y => y :: omap f l | None => omap f l end.
Proof. reflexivity. Qed.



Lemma collect_files (ps : list Part) :
  forall (result : FormDataBody),
    files (fold_left collect ps result)
    = match omap file_of ps with
      | [] => files result
      | fs => Some (default [] (files result) ++ fs)
      end.
Proof.
  induction ps as [|[n [v|f]] ps IH]; intros result; [done| |];
    cbn [fold_left]; rewrite IH, omap_step; cbn [collect files file_of].
  - by destruct (String.eqb n "__proto__").
  - destruct (omap file_of ps); [done|].
    cbn [default from_option id]. by rewrite <- app_assoc.
Qed.




(* ===================================================================== *)
(** ** Storage permission failures *)
(* ===================================================================== *)

(** C1, as the code has it.  Both consumption methods catch a
    [PermissionDenied] that [parts] throws: it is logged and no further part
    is consumed; [read] returns the result gathered from the parts yielded
    so far, and the sequence of [stream] ends after those parts without a
    failure.  Every other error that [parts] throws reaches the caller of
    either method. *)
Theorem permission_denied_is_caught_by_both (host : Host)
    (options : FormDataReadOptions) (this : FormDataReader) (w : World)
    (body : BufReader) :
  reading this = false ->
  readToStartOrEnd (rd_body this) (boundaryPart this) (boundaryFinal this)
  = (Ok true, body) ->
  let g := parts host (parts_options this options) w body in
  let this' := set_body (set_reading this) (g_body g) in
  (g_thrown g = Some PermissionDenied ->
   read host options this w
   = (Ok (fold_left collect (g_parts g) empty_result), this',
      console_error PermissionDenied (g_world g)) /\
   drain host (SuspendedStart options) this w
   = ({| g_parts := g_parts g; g_thrown := None;
         g_world := console_error PermissionDenied (g_world g);
         g_body := g_body g |}, this')) /\
  (forall e,
     g_thrown g = Some e -> e <> PermissionDenied ->
     read host options this w = (Throw e, this', g_world g) /\
     drain host (SuspendedStart options) this w = (g, this')).
Proof.
  intros Hr Hstart g this'. split.
  - intros Hg. unfold read, drain. rewrite Hr.
    cbn [rd_body boundaryPart boundaryFinal set_reading]. rewrite Hstart.
    change (parts_options (set_reading this) options)
      with (parts_options this options).
    fold g. by rewrite Hg.
  - intros e Hg He. unfold read, drain. rewrite Hr.
    cbn [rd_body boundaryPart boundaryFinal set_reading]. rewrite Hstart.
    change (parts_options (set_reading this) options)
      with (parts_options this options).
    fold g. rewrite Hg. by destruct e.
Qed.

Lemma permission_denied_is_caught_by_both_witness :
  let this := demo_reader (encode_form "B" demo_form_mixed) in
  let g := parts locked_host (parts_options this no_options) empty_world
             (tl (rd_body this)) in
  let this' := set_body (set_reading this) (g_body g) in
  read locked_host no_options this empty_world
  = (Ok (fold_left collect (g_parts g) empty_result), this',
     console_error PermissionDenied (g_world g)) /\
  drain locked_host (SuspendedStart no_options) this empty_world
  = ({| g_parts := g_parts g; g_thrown := None;
        g_world := console_error PermissionDenied (g_world g);
        g_body := g_body g |}, this').
Proof.
  refine (proj1 (permission_denied_is_caught_by_both locked_host no_options
            (demo_reader (encode_form "B" demo_form_mixed)) empty_world
            (tl (rd_body (demo_reader (encode_form "B" demo_form_mixed)))) _ _) _).
  - reflexivity.
  - vm_compute. reflexivity.
  - vm_compute. reflexivity.
Defined.

(** The claim C1 fails for [stream]: the creation of the storage file of
    the second part is refused, [parts] throws [PermissionDenied], and the
    lazy consumption logs it and ends after the first part with no error. *)
Lemma stream_swallows_permission_denied :
  let this := demo_reader (encode_form "B" demo_form_mixed) in
  let run := (drain locked_host (SuspendedStart no_options) this empty_world).1 in
  g_thrown (parts locked_host (parts_options this no_options) empty_world
              (tl (rd_body this)))
  = Some PermissionDenied /\
  g_parts run = [("a"%string, Field "1")] /\
  g_thrown run = None /\
  w_log (g_world run) = [PermissionDenied].
Proof. vm_compute. repeat split. Qed.

(* ===================================================================== *)
(** ** The single-use guard *)
(* ===================================================================== *)

Lemma guard_rejects (host : Host) (this : FormDataReader) :
  reading this = true ->
  forall options w,
    read host options this w = (Throw AlreadyBeingRead, this, w) /\
    drain host (SuspendedStart options) this w
    = ({| g_parts := []; g_thrown := Some AlreadyBeingRead; g_world := w;
          g_body := rd_body this |}, this).
Proof. intros Hr options w. unfold read, drain. by rewrite Hr. Qed.

Lemma read_sets_reading (host : Host) options this w :
  reading (read host options this w).1.2 = true.
Proof.
  unfold read. destruct (reading this) eqn:Hr; [done|].
  destruct (readToStartOrEnd _ _ _) as [[[|]|e] body]; [|done|done].
  destruct (g_thrown _) as [err|]; [|done]. by destruct (is_PermissionDenied err).
Qed.

Lemma drain_sets_reading (host : Host) options this w :
  reading (drain host (SuspendedStart options) this w).2 = true.
Proof.
  unfold drain. destruct (reading this) eqn:Hr; [done|].
  destruct (readToStartOrEnd _ _ _) as [[[|]|e] body]; [|done|done].
  destruct (g_thrown _) as [err|]; [|done]. by destruct (is_PermissionDenied err).
Qed.

(** C2, as the code has it.  The flag is set by a call of [read] and by the
    first advance of an iterator of [stream]; the call of [stream] alone
    leaves the reader as it is.  Once the flag is set, every call of [read]
    and every first advance of an iterator of [stream] fails at once with
    [AlreadyBeingRead] and leaves the underlying stream, the storage and the
    reader untouched. *)
Theorem single_use_guard (host : Host) (options : FormDataReadOptions)
    (this : FormDataReader) (w : World) :
  (stream options this).2 = this /\
  (forall used,
     used = (read host options this w).1.2 \/
     used = (drain host (stream options this).1 this w).2 ->
     reading used = true /\
     forall options' w',
       read host options' used w' = (Throw AlreadyBeingRead, used, w') /\
       drain host (stream options' used).1 used w'
       = ({| g_parts := []; g_thrown := Some AlreadyBeingRead; g_world := w';
             g_body := rd_body used |}, used)).
Proof.
  split; [done|]. intros used Hused.
  assert (reading used = true) as Hr.
  { destruct Hused as [-> | ->];
      [apply read_sets_reading | apply drain_sets_reading]. }
  split; [done|]. intros options' w'. by apply guard_rejects.
Qed.

Lemma single_use_guard_witness :
  let this := demo_reader (encode_form "B" demo_form_mixed) in
  let used := (read open_host no_options this empty_world).1.2 in
  reading used = true /\
  forall options' w',
    read open_host options' used w' = (Throw AlreadyBeingRead, used, w') /\
    drain open_host (stream options' used).1 used w'
    = ({| g_parts := []; g_thrown := Some AlreadyBeingRead; g_world := w';
          g_body := rd_body used |}, used).
Proof.
  refine (proj2 (single_use_guard open_host no_options
            (demo_reader (encode_form "B" demo_form_mixed)) empty_world) _ _).
  left. reflexivity.
Defined.

(** The claim C2 fails for a call of [stream] that is not followed by an
    advance of its iterator: a later call of [read] does not fail, and it
    consumes the whole stream; it is the iterator that fails when it is
    advanced afterwards. *)
Lemma stream_call_leaves_reader_usable :
  let this := demo_reader (encode_form "B" demo_form_file) in
  let '(it, this1) := stream (in_memory 10) this in
  let '(res, this2, w2) := read open_host (in_memory 10) this1 empty_world in
  res = Ok {| fields := ∅; files := Some [demo_file "a.txt" (line "hi")] |} /\
  rd_body this1 <> [] /\ rd_body this2 = [] /\
  g_thrown (drain open_host it this2 w2).1 = Some AlreadyBeingRead.
Proof. vm_compute. repeat split. discriminate. Qed.

(* ===================================================================== *)
(** ** Round trip *)
(* ===================================================================== *)

(** C8 fails on the code.  A form with one file whose content is [hi],
    encoded by the reference encoder and decoded, comes back with the line
    break that stands in front of the final marker at the end of its
    content, both when the file is held in memory and when it is written to
    the storage. *)
Lemma file_roundtrip_gains_line_break :
  let this := demo_reader (encode_form "B" demo_form_file) in
  let ps := g_parts (drain open_host (SuspendedStart (in_memory 10)) this
                       empty_world).1 in
  let stored := g_world (drain open_host (SuspendedStart no_options) this
                           empty_world).1 in
  reader_of open_host "B" (encode_form "B" demo_form_file) = Ok this /\
  map decoded_entry ps = [Some ("f"%string, str "hi" ++ CRLF)] /\
  map decoded_entry ps <> map (fun e => Some (entry_payload e)) demo_form_file /\
  f_data <$> w_files stored = [str "hi" ++ CRLF].
Proof. vm_compute. repeat split. discriminate. Qed.

(** The field branch, next to it, gives a value back as it was sent. *)
Lemma field_roundtrip_example :
  let this := demo_reader (encode_form "B" [TextEntry "a" "1"; TextEntry "b" "two"]) in
  let ps := g_parts (drain open_host (SuspendedStart no_options) this
                       empty_world).1 in
  map decoded_entry ps
  = map (fun e => Some (entry_payload e)) [TextEntry "a" "1"; TextEntry "b" "two"].
Proof. vm_compute. reflexivity. Qed.

(* ===================================================================== *)
(** ** A rule for the loop of the file branch *)
(* ===================================================================== *)

Lemma file_loop_step (host : Host) (o : PartsOptions) (nm ctype orig : string)
    (v : FileVars) outPath w (l : bytes) (body : BufReader) :
  file_loop host o nm ctype orig v outPath w (l :: body)
  = if is_boundary o (stripEol l) then
      {| pr_end :=
           Yielded (nm, File {| content := v_buf v; contentType := ctype;
                                name := nm; filename := v_filename v;
                                originalName := orig |})
                   (isEqual (stripEol l) (final o));
         pr_outPath := outPath; pr_world := close_if (v_file v) w;
         pr_body := body |}
    else if v_byteLength v + byteLength l >? maxFileSize o then
      {| pr_end := Failed (RequestEntityTooLarge (maxFileSize o));
         pr_outPath := outPath; pr_world := close_if (v_file v) w;
         pr_body := body |}
    else
      match file_line host o ctype v outPath w l with
      | (Throw e, outPath, w) => failed e outPath w body
      | (Ok v, outPath, w) => file_loop host o nm ctype orig v outPath w body
      end.
Proof.
  cbn [file_loop]. unfold file_line.
  destruct (is_boundary o (stripEol l)); [done|].
  destruct (_ >? maxFileSize o); [done|].
  destruct (v_buf v); [|done].
  destruct (_ >? maxSize o); [|done].
  by destruct (getFile _ _ _ _ _) as [[[[fname file]|e] op] w1].
Qed.

Section FileLoopRule.

Variable host : Host.
Variable o : PartsOptions.
Variables nm ctype orig : string.

(** [I] holds of the variables, the directory and the storage whenever the
    loop is at its head; [Q] is what is wanted of the way the part ends. *)
Variable I : FileVars -> option string -> World -> Prop.
Variable Q : PartRun -> Prop.

Hypothesis at_eof : forall v op w,
  I v op w ->
  Q {| pr_end := Failed (BadRequest UnexpectedEOF); pr_outPath := op;
       pr_world := w; pr_body := [] |}.

Hypothesis at_marker : forall v op w l body,
  I v op w -> is_boundary o (stripEol l) = true ->
  Q {| pr_end :=
         Yielded (nm, File {| content := v_buf v; contentType := ctype;
                              name := nm; filename := v_filename v;
                              originalName := orig |})
                 (isEqual (stripEol l) (final o));
       pr_outPath := op; pr_world := close_if (v_file v) w; pr_body := body |}.

Hypothesis at_limit : forall v op w l body,
  I v op w -> content_line o l ->
  maxFileSize o < v_byteLength v + byteLength l ->
  Q {| pr_end := Failed (RequestEntityTooLarge (maxFileSize o));
       pr_outPath := op; pr_world := close_if (v_file v) w; pr_body := body |}.

Hypothesis at_line : forall v op w l,
  I v op w -> content_line o l ->
  v_byteLength v + byteLength l <= maxFileSize o ->
  match file_line host o ctype v op w l with
  | (Ok v', op', w') => I v' op' w'
  | (Throw e, op', w') => forall body, Q (failed e op' w' body)
  end.

Lemma file_loop_rule (body : BufReader) :
  forall v op w, I v op w -> Q (file_loop host o nm ctype orig v op w body).
Proof.
  induction body as [|l body IH]; intros v op w Hi.
  - by apply (at_eof v).
  - rewrite file_loop_step.
    destruct (is_boundary o (stripEol l)) eqn:Hb; [by apply at_marker|].
    destruct (Z.gtb_spec (v_byteLength v + byteLength l) (maxFileSize o)) as [Hgt|Hle];
      [by apply (at_limit v op w l)|].
    pose proof (at_line v op w l Hi Hb Hle) as Hline.
    destruct (file_line host o ctype v op w l) as [[[v'|e] op'] w'].
    + by apply IH.
    + apply Hline.
Qed.

End FileLoopRule.

(* ===================================================================== *)
(** ** What a part leaves of the storage *)
(* ===================================================================== *)

Lemma writeAll_log (file : nat) (data : bytes) (w : World) :
  w_log (writeAll file data w) = w_log w.
Proof. unfold writeAll. by destruct (w_files w !! file). Qed.

Lemma writeAll_temp (file : nat) (data : bytes) (w : World) :
  w_temp (writeAll file data w) = w_temp w.
Proof. unfold writeAll. by destruct (w_files w !! file). Qed.

Lemma close_log (file : nat) (w : World) : w_log (close file w) = w_log w.
Proof. unfold close. by destruct (w_files w !! file). Qed.

Lemma close_temp (file : nat) (w : World) : w_temp (close file w) = w_temp w.
Proof. unfold close. by destruct (w_files w !! file). Qed.

Lemma write_last (fs : list StoredFile) fn d0 op (data : bytes) (w : World) :
  w_files w = fs ++ [{| f_path := fn; f_data := d0; f_open := op |}] ->
  w_files (writeAll (length fs) data w)
  = fs ++ [{| f_path := fn; f_data := d0 ++ data; f_open := op |}].
Proof.
  intros Hw. unfold writeAll. rewrite Hw.
  rewrite lookup_app_r, Nat.sub_diag by lia. simpl.
  by rewrite insert_app_r_alt, Nat.sub_diag by lia.
Qed.

Lemma close_last (fs : list StoredFile) fn d0 op (w : World) :
  w_files w = fs ++ [{| f_path := fn; f_data := d0; f_open := op |}] ->
  w_files (close (length fs) w)
  = fs ++ [{| f_path := fn; f_data := d0; f_open := false |}].
Proof.
  intros Hw. unfold close. rewrite Hw.
  rewrite lookup_app_r, Nat.sub_diag by lia. simpl.
  by rewrite insert_app_r_alt, Nat.sub_diag by lia.
Qed.

(** A [getFile] that throws has made no file and written no log. *)
Lemma getFile_throw (host : Host) (prefix outPath : option string)
    (ctype : string) (w : World) e outPath' w' :
  getFile host prefix outPath ctype w = (Throw e, outPath', w') ->
  w_files w' = w_files w /\ w_log w' = w_log w.
Proof.
  unfold getFile.
  destruct (extension host ctype) as [ext|]; [|by intros [= _ _ <-]].
  destruct (String.eqb ext ""); [by intros [= _ _ <-]|].
  destruct (truthy outPath).
  - simpl. unfold open_createNew. simpl.
    destruct (write_denied host _); [by intros [= _ _ <-]|].
    destruct (path_exists _ _); [by intros [= _ _ <-]|done].
  - unfold makeTempDir. destruct (temp_denied host); [by intros [= _ _ <-]|].
    simpl. unfold open_createNew. simpl.
    destruct (write_denied host _); [by intros [= _ _ <-]|].
    destruct (path_exists _ _); [by intros [= _ _ <-]|done].
Qed.

Lemma open_handles_same (w w' : World) :
  w_files w' = w_files w -> open_handles w' = open_handles w.
Proof. unfold open_handles. by intros ->. Qed.

Lemma file_line_inv (host : Host) (o : PartsOptions) (ctype : string)
    (w0 : World) (v : FileVars) outPath w (l : bytes) :
  file_inv w0 v w ->
  match file_line host o ctype v outPath w l with
  | (Ok v', _, w') => file_inv w0 v' w'
  | (Throw e, _, w') => w_log w' = w_log w0 /\ w_files w' = w_files w0
  end.
Proof.
  intros [Hlog [(Hfile & Hname & [buf Hbuf] & Hfiles)
               |(Hbuf & fn & data & Hfile & Hname & Hfiles)]];
    unfold file_line; rewrite Hbuf.
  - destruct (_ >? maxSize o).
    + destruct (getFile _ _ _ _ _) as [[[[fname file]|e] op] w1] eqn:Hget.
      * destruct (getFile_ok _ _ _ _ _ _ _ _ _ Hget) as (-> & Hnew & _ & Hlog1).
        cbn [v_file]. rewrite writeAll_writeAll, Hfiles in *.
        split; [by rewrite writeAll_log, Hlog1|]. right. split; [done|].
        exists fname, (buf ++ l). repeat split.
        by rewrite (write_last _ _ _ _ _ _ Hnew).
      * destruct (getFile_throw _ _ _ _ _ _ _ _ Hget) as [Hf Hl].
        split; congruence.
    + cbn [v_file]. rewrite Hfile. split; [done|]. left. by repeat split.
  - cbn [v_file]. rewrite Hfile. split; [by rewrite writeAll_log|].
    right. split; [done|]. exists fn, (data ++ l). repeat split; [done|].
    by apply write_last.
Qed.

(** The loop of the file branch, entered with its variables and the storage
    in step, ends as [part_post] says. *)
Lemma file_loop_post (host : Host) (o : PartsOptions) (nm ctype orig : string)
    (w0 : World) (body : BufReader) v outPath w :
  file_inv w0 v w ->
  part_post w0 (file_loop host o nm ctype orig v outPath w body).
Proof.
  revert v outPath w.
  apply (file_loop_rule host o nm ctype orig
           (fun v _ w => file_inv w0 v w) (part_post w0)).
  - intros v op w [Hlog Hshape]. repeat split; cbn [pr_world pr_end]; try done.
    destruct Hshape as [(_ & _ & _ & ->)|(_ & fn & data & _ & _ & ->)];
      [done|by apply prefix_app_r].
  - intros v op w l rest [Hlog [(Hfile & Hname & Hbuf & Hfiles)
                               |(Hbuf & fn & data & Hfile & Hname & Hfiles)]] _;
      rewrite Hfile; cbn [close_if].
    + repeat split; cbn [pr_world pr_end]; try done.
      * by rewrite Hfiles.
      * intros _. by apply open_handles_same.
      * intros p fin [= <- _]. split; [done|]. left. by rewrite Hname.
    + pose proof (close_last _ _ _ _ _ Hfiles) as Hclosed.
      repeat split; cbn [pr_world pr_end].
      * by rewrite close_log.
      * rewrite Hclosed. by apply prefix_app_r.
      * intros _. by eapply open_handles_closed.
      * intros p fin [= <- _]. split; [done|]. right. by rewrite Hbuf, Hname.
  - intros v op w l rest [Hlog [(Hfile & Hname & Hbuf & Hfiles)
                               |(Hbuf & fn & data & Hfile & Hname & Hfiles)]] _ _;
      rewrite Hfile; cbn [close_if].
    + repeat split; cbn [pr_world pr_end]; try done.
      * by rewrite Hfiles.
      * intros _. by apply open_handles_same.
    + pose proof (close_last _ _ _ _ _ Hfiles) as Hclosed.
      repeat split; cbn [pr_world pr_end]; try done.
      * by rewrite close_log.
      * rewrite Hclosed. by apply prefix_app_r.
      * intros _. by eapply open_handles_closed.
  - intros v op w l Hinv _ _.
    pose proof (file_line_inv host o ctype w0 v op w l Hinv) as Hline.
    destruct (file_line host o ctype v op w l) as [[[v'|e] op'] w']; [done|].
    destruct Hline as [Hl Hf]. intros rest.
    repeat split; cbn [failed pr_world pr_end]; try done.
    + by rewrite Hf.
    + intros _. by apply open_handles_same.
Qed.

Lemma part_post_same (w : World) (r : PartRun) :
  pr_world r = w ->
  (forall p fin, pr_end r = Yielded p fin -> well_located p) ->
  part_post w r.
Proof. intros Hw Hp. unfold part_post. rewrite Hw. by repeat split. Qed.

Lemma field_loop_yields_field (host : Host) (o : PartsOptions) (nm : string)
    (body : BufReader) :
  forall acc p fin,
    (field_loop host o nm acc body).1 = Yielded p fin -> exists v, p = (nm, Field v).
Proof.
  induction body as [|raw body IH]; intros acc p fin; cbn [field_loop]; [done|].
  destruct (is_boundary o (stripEol raw)); [|apply IH].
  intros [= <- _]. by eexists.
Qed.

Lemma file_part_post (host : Host) (o : PartsOptions) (nm ctype disp : string)
    outPath w (body : BufReader) :
  part_post w (file_part host o nm ctype disp outPath w body).
Proof.
  unfold file_part. destruct (negb (maxSize o =? 0)).
  - apply file_loop_post. split; [done|]. left. by repeat split.
  - destruct (getFile _ _ _ _ _) as [[[[fname file]|e] op] w1] eqn:Hget.
    + destruct (getFile_ok _ _ _ _ _ _ _ _ _ Hget) as (-> & Hnew & _ & Hlog1).
      apply file_loop_post. split; [done|]. right. split; [done|].
      by exists fname, [].
    + destruct (getFile_throw _ _ _ _ _ _ _ _ Hget) as [Hf Hl].
      repeat split; cbn [pr_world pr_end]; try done.
      * by rewrite Hf.
      * intros _. by apply open_handles_same.
Qed.

Lemma one_part_post (host : Host) (o : PartsOptions) outPath w
    (body : BufReader) :
  part_post w (one_part host o outPath w body).
Proof.
  unfold one_part.
  destruct (readHeaders host ∅ body) as [[headers|e] body'];
    [|by apply part_post_same].
  destruct (negb (truthy _)); [by apply part_post_same|].
  destruct (negb (is_form_data _)); [by apply part_post_same|].
  destruct (param_exec _ _) as [matched|]; [|by apply part_post_same].
  destruct (truthy (headers !! "content-type"%string)); [apply file_part_post|].
  destruct (field_loop _ _ _ _ _) as [e b] eqn:E.
  apply part_post_same; [done|]. cbn [pr_end]. intros p fin ->.
  apply (f_equal fst), field_loop_yields_field in E as [v ->]. done.
Qed.

(** Induction over the turns of the outer loop of [parts]. *)
Lemma parts_from_ind (host : Host) (o : PartsOptions)
    (P : option string -> World -> BufReader -> Generated -> Prop) :
  (forall outPath w body,
     let r := one_part host o outPath w body in
     match pr_end r with
     | Failed e =>
         P outPath w body
           {| g_parts := []; g_thrown := Some e; g_world := pr_world r;
              g_body := pr_body r |}
     | Yielded p true =>
         P outPath w body
           {| g_parts := [p]; g_thrown := None; g_world := pr_world r;
              g_body := pr_body r |}
     | Yielded p false =>
         forall g,
           P (pr_outPath r) (pr_world r) (pr_body r) g ->
           P outPath w body (yield_first p g)
     end) ->
  forall outPath w body, P outPath w body (parts_from host o outPath w body).
Proof.
  intros Hturn outPath w body.
  remember (S (length body)) as n eqn:Hn.
  assert (length body < n)%nat as Hlt by lia. clear Hn.
  revert outPath w body Hlt.
  induction n as [|n IH]; intros outPath w body Hlt; [lia|].
  rewrite parts_from_unfold. cbv zeta.
  specialize (Hturn outPath w body). cbv zeta in Hturn.
  destruct (pr_end (one_part host o outPath w body)) as [p [|]|e] eqn:E;
    [done| |done].
  apply Hturn, IH. apply one_part_shrinks in E. lia.
Qed.

(** What a run of [parts] leaves of the storage it starts from. *)
Lemma parts_from_post (host : Host) (o : PartsOptions) outPath w
    (body : BufReader) :
  let g := parts_from host o outPath w body in
  w_log (g_world g) = w_log w /\
  w_files w `prefix_of` w_files (g_world g) /\
  (g_thrown g <> Some (BadRequest UnexpectedEOF) ->
   open_handles (g_world g) = open_handles w) /\
  Forall well_located (g_parts g).
Proof.
  cbv zeta. revert outPath w body.
  apply (parts_from_ind host o (fun _ w _ g =>
    w_log (g_world g) = w_log w /\
    w_files w `prefix_of` w_files (g_world g) /\
    (g_thrown g <> Some (BadRequest UnexpectedEOF) ->
     open_handles (g_world g) = open_handles w) /\
    Forall well_located (g_parts g))).
  intros outPath w body r.
  destruct (one_part_post host o outPath w body) as (Hlog & Hpre & Hopen & Hloc).
  fold r in Hlog, Hpre, Hopen, Hloc.
  destruct (pr_end r) as [p [|]|e] eqn:E; cbn [g_world g_thrown g_parts].
  - repeat split; try done.
    + intros _. by apply Hopen.
    + constructor; [by eapply Hloc|done].
  - intros g (Hlog' & Hpre' & Hopen' & Hloc'). cbn [yield_first g_world g_thrown g_parts].
    repeat split.
    + congruence.
    + by etrans.
    + intros Hne. rewrite Hopen' by done. by apply Hopen.
    + constructor; [by eapply Hloc|done].
  - repeat split; try done. intros Hne. apply Hopen. congruence.
Qed.

(* ===================================================================== *)
(** ** Properties of a whole run of [parts] *)
(* ===================================================================== *)

(** X1. Every file part that [parts] yields carries the name it is yielded
    under and has exactly one of its content and its storage path: a part
    held in memory has no path, a part written to the storage has no
    content. *)
Theorem yielded_files_have_one_location (host : Host) (o : PartsOptions)
    (w : World) (body : BufReader) :
  Forall well_located (g_parts (parts host o w body)).
Proof. apply parts_from_post. Qed.

(** X2. A run of [parts] that does not end with the stream exhausted inside
    a part leaves no storage file open: the handles that are open after the
    run are those that were open before it. *)
Theorem parts_closes_its_files (host : Host) (o : PartsOptions)
    (w : World) (body : BufReader) :
  g_thrown (parts host o w body) <> Some (BadRequest UnexpectedEOF) ->
  open_handles (g_world (parts host o w body)) = open_handles w.
Proof. apply parts_from_post. Qed.

Lemma parts_closes_its_files_witness :
  open_handles
    (g_world (parts open_host (demo_options 0 100) empty_world
                (tl (new_BufReader (encode_form "B" demo_form_repeats)))))
  = open_handles empty_world.
Proof.
  refine (parts_closes_its_files open_host (demo_options 0 100) empty_world
            (tl (new_BufReader (encode_form "B" demo_form_repeats))) _).
  vm_compute. discriminate.
Defined.

(** X3. A run of [parts] keeps the files that the storage held before it as
    they were, at their places, and prints nothing on the console: it only
    adds files of its own behind them. *)
Theorem parts_keeps_existing_files (host : Host) (o : PartsOptions)
    (w : World) (body : BufReader) :
  w_files w `prefix_of` w_files (g_world (parts host o w body)) /\
  w_log (g_world (parts host o w body)) = w_log w.
Proof.
  destruct (parts_from_post host o (outPath o) w body) as (Hlog & Hpre & _).
  by split.
Qed.

(* ===================================================================== *)
(** ** File parts on the storage *)
(* ===================================================================== *)

Lemma open_handles_opened (w w' : World) fn data :
  w_files w' = w_files w ++ [{| f_path := fn; f_data := data; f_open := true |}] ->
  open_handles w' = open_handles w ++ [fn].
Proof.
  unfold open_handles. intros ->. by rewrite filter_app, fmap_app.
Qed.

(** X4. With [maxSize] at 0, the default, a file part never gathers in
    memory: its storage file is made before any of its lines is read, every
    line is appended to it, and the part is yielded with the path of the
    file and no content; the file, closed, holds all the bytes of the
    part. *)
Theorem file_part_written_to_storage (host : Host) (o : PartsOptions)
    (nm ctype disp : string) outPath w (lines : list bytes) marker rest
    fname file outPath1 w1 :
  maxSize o = 0 ->
  getFile host (prefix o) outPath ctype w = (Ok (fname, file), outPath1, w1) ->
  Forall (content_line o) lines ->
  is_boundary o (stripEol marker) = true ->
  total lines <= maxFileSize o ->
  let r := file_part host o nm ctype disp outPath w (lines ++ marker :: rest) in
  r = {| pr_end :=
           Yielded (nm, File {| content := None; contentType := ctype; name := nm;
                                filename := Some fname;
                                originalName := getFilename disp |})
                   (isEqual (stripEol marker) (final o));
         pr_outPath := outPath1;
         pr_world := close file (writeAll file (concat lines) w1);
         pr_body := rest |} /\
  w_files (pr_world r)
  = w_files w ++ [{| f_path := fname; f_data := concat lines; f_open := false |}].
Proof.
  intros Hz Hget Hc Hb Hf r.
  destruct (getFile_ok _ _ _ _ _ _ _ _ _ Hget) as (-> & Hnew & _ & _).
  assert (r = {| pr_end :=
                   Yielded (nm, File {| content := None; contentType := ctype;
                                        name := nm; filename := Some fname;
                                        originalName := getFilename disp |})
                           (isEqual (stripEol marker) (final o));
                 pr_outPath := outPath1;
                 pr_world := close (length (w_files w))
                               (writeAll (length (w_files w)) (concat lines) w1);
                 pr_body := rest |}) as ->.
  { subst r. unfold file_part. rewrite Hz. cbn [Z.eqb negb]. rewrite Hget.
    rewrite file_loop_appends by (done || lia).
    by rewrite file_loop_boundary. }
  split; [done|]. cbn [pr_world]. by eapply closed_files.
Qed.

Lemma file_part_written_to_storage_witness :
  let r := file_part open_host (demo_options 0 100) "f" "text/plain" "form-data"
             None empty_world ([line "ab"; line "cd"] ++ line "--B--" :: []) in
  r = {| pr_end :=
           Yielded ("f"%string,
                    File {| content := None; contentType := "text/plain";
                            name := "f"; filename := Some "/tmp/d/x.txt"%string;
                            originalName := getFilename "form-data" |})
                   (isEqual (stripEol (line "--B--")) (final (demo_options 0 100)));
         pr_outPath := Some "/tmp/d"%string;
         pr_world := close 0 (writeAll 0 (concat [line "ab"; line "cd"])
                       (getFile open_host None None "text/plain" empty_world).2);
         pr_body := [] |} /\
  w_files (pr_world r)
  = w_files empty_world ++
    [{| f_path := "/tmp/d/x.txt"; f_data := concat [line "ab"; line "cd"];
        f_open := false |}].
Proof.
  refine (file_part_written_to_storage open_host (demo_options 0 100) "f"
            "text/plain" "form-data" None empty_world [line "ab"; line "cd"]
            (line "--B--") [] "/tmp/d/x.txt"%string 0%nat (Some "/tmp/d"%string)
            _ _ _ _ _ _).
  - reflexivity.
  - reflexivity.
  - repeat constructor.
  - reflexivity.
  - vm_compute. discriminate.
Defined.

(** X5. When the stream ends inside a file part that has its storage file,
    the decoding fails with the bad request of the unexpected end and the
    file is not closed: its handle stays open and the file holds the bytes
    read so far. *)
Theorem file_part_eof_leaves_file_open (host : Host) (o : PartsOptions)
    (nm ctype disp : string) outPath w (lines : list bytes)
    fname file outPath1 w1 :
  maxSize o = 0 \/ (0 < maxSize o /\ maxSize o < total lines) ->
  getFile host (prefix o) outPath ctype w = (Ok (fname, file), outPath1, w1) ->
  Forall (content_line o) lines ->
  total lines <= maxFileSize o ->
  let r := file_part host o nm ctype disp outPath w lines in
  pr_end r = Failed (BadRequest UnexpectedEOF) /\
  w_files (pr_world r)
  = w_files w ++ [{| f_path := fname; f_data := concat lines; f_open := true |}] /\
  open_handles (pr_world r) = open_handles w ++ [fname].
Proof.
  intros Hsize Hget Hc Hf r.
  destruct (getFile_ok _ _ _ _ _ _ _ _ _ Hget) as (-> & Hnew & _ & _).
  assert (pr_end r = Failed (BadRequest UnexpectedEOF) /\
          pr_world r = writeAll (length (w_files w)) (concat lines) w1) as [He Hw].
  { subst r. unfold file_part. destruct Hsize as [Hz|[Hpos Hgt]].
    - rewrite Hz. cbn [Z.eqb negb]. rewrite Hget.
      rewrite <- (app_nil_r lines) at 1 2.
      by rewrite file_loop_appends by (done || lia).
    - destruct (Z.eqb_spec (maxSize o) 0); [lia|]. cbn [negb].
      destruct (first_crossing (maxSize o) lines) as (pre & l & post & -> & Hle & Hcross);
        [lia|done|].
      apply Forall_app in Hc as [Hpre Hc]. inversion_clear Hc as [|? ? Hl Hpost].
      rewrite total_app, total_cons in Hf.
      pose proof (total_nonneg post). pose proof (total_nonneg pre).
      pose proof (byteLength_nonneg l).
      rewrite file_loop_buffers by (done || lia).
      rewrite file_loop_spills by (done || lia). rewrite Hget.
      rewrite <- (app_nil_r post) at 1 2.
      rewrite file_loop_appends by (done || lia).
      cbn [file_loop pr_end pr_world].
      rewrite writeAll_writeAll, concat_app. cbn [concat app].
      by rewrite <- app_assoc. }
  rewrite Hw. split; [done|].
  pose proof (written_files _ _ (concat lines) _ Hnew) as Hfiles.
  split; [done|]. by eapply open_handles_opened.
Qed.

Lemma file_part_eof_leaves_file_open_witness :
  let r := file_part open_host (demo_options 0 100) "f" "text/plain" "form-data"
             None empty_world [line "ab"; line "cd"] in
  pr_end r = Failed (BadRequest UnexpectedEOF) /\
  w_files (pr_world r)
  = w_files empty_world ++
    [{| f_path := "/tmp/d/x.txt"; f_data := concat [line "ab"; line "cd"];
        f_open := true |}] /\
  open_handles (pr_world r) = open_handles empty_world ++ ["/tmp/d/x.txt"%string].
Proof.
  refine (file_part_eof_leaves_file_open open_host (demo_options 0 100) "f"
            "text/plain" "form-data" None empty_world [line "ab"; line "cd"]
            "/tmp/d/x.txt"%string 0%nat (Some "/tmp/d"%string) _ _ _ _ _).
  - left. reflexivity.
  - reflexivity.
  - repeat constructor.
  - vm_compute. discriminate.
Defined.

(** X6. The test of [maxFileSize] comes before the spill: a part held in
    memory that passes [maxFileSize] on a line fails with
    [RequestEntityTooLarge] and leaves the storage and the output directory
    as they were, also when the same line passes [maxSize]; no storage file
    is made for a part that is refused. *)
Theorem size_limit_precedes_spill (host : Host) (o : PartsOptions)
    (nm ctype disp : string) outPath w (pre : list bytes) l rest :
  maxSize o <> 0 ->
  Forall (content_line o) pre ->
  content_line o l ->
  total pre <= maxSize o ->
  total pre <= maxFileSize o ->
  maxFileSize o < total pre + byteLength l ->
  file_part host o nm ctype disp outPath w (pre ++ l :: rest)
  = {| pr_end := Failed (RequestEntityTooLarge (maxFileSize o));
       pr_outPath := outPath; pr_world := w; pr_body := rest |}.
Proof.
  intros Hnz Hpre Hl Hm Hf Hgt. unfold file_part.
  destruct (Z.eqb_spec (maxSize o) 0); [done|]. cbn [negb].
  rewrite file_loop_buffers by (done || lia).
  by rewrite file_loop_too_large by (done || (cbn; lia)).
Qed.

Lemma size_limit_precedes_spill_witness :
  file_part open_host (demo_options 5 6) "f" "text/plain" "form-data"
    None empty_world ([line "ab"] ++ line "cd" :: [line "--B--"])
  = {| pr_end := Failed (RequestEntityTooLarge (maxFileSize (demo_options 5 6)));
       pr_outPath := None; pr_world := empty_world; pr_body := [line "--B--"] |}.
Proof.
  refine (size_limit_precedes_spill open_host (demo_options 5 6) "f" "text/plain"
            "form-data" None empty_world [line "ab"] (line "cd") [line "--B--"]
            _ _ _ _ _ _).
  - discriminate.
  - repeat constructor.
  - reflexivity.
  - vm_compute. discriminate.
  - vm_compute. discriminate.
  - reflexivity.
Defined.

(* ===================================================================== *)
(** ** The output directory *)
(* ===================================================================== *)

Lemma temp_made_refl (outPath : option string) (w : World) :
  temp_made outPath w outPath w.
Proof. by left. Qed.

Lemma temp_made_trans op0 w0 op1 w1 op2 w2 :
  temp_made op0 w0 op1 w1 -> temp_made op1 w1 op2 w2 -> temp_made op0 w0 op2 w2.
Proof.
  intros [[-> H01]|(Hf & Ht & H01)] [[-> H12]|(Hf' & Ht' & H12)].
  - left. split; [done|congruence].
  - right. repeat split; [done|done|congruence].
  - right. repeat split; [done|done|congruence].
  - congruence.
Qed.

Lemma temp_made_same_temp op0 w0 op w w' :
  temp_made op0 w0 op w -> w_temp w' = w_temp w -> temp_made op0 w0 op w'.
Proof.
  intros [[-> H]|(Hf & Ht & H)] Hw; [left|right]; repeat split; congruence.
Qed.

Section OutputDirectory.

Variable host : Host.
Hypothesis temp_dir_named : forall n, temp_dir host n <> ""%string.

Lemma getFile_temp (prefix outPath : option string) (ctype : string) (w : World) :
  temp_made outPath w
    (getFile host prefix outPath ctype w).1.2 (getFile host prefix outPath ctype w).2.
Proof.
  unfold getFile.
  destruct (extension host ctype) as [ext|]; [|apply temp_made_refl].
  destruct (String.eqb ext ""); [apply temp_made_refl|].
  destruct (truthy outPath) eqn:Ht.
  - simpl. unfold open_createNew. simpl.
    destruct (write_denied host _); [by left|].
    destruct (path_exists _ _); by left.
  - unfold makeTempDir. destruct (temp_denied host); [apply temp_made_refl|].
    assert (truthy (Some (temp_dir host (w_temp w))) = true) as Hnamed.
    { cbn [truthy]. apply negb_true_iff, String.eqb_neq, temp_dir_named. }
    simpl. unfold open_createNew. simpl.
    destruct (write_denied host _); [by right|].
    destruct (path_exists _ _); by right.
Qed.

Lemma file_line_temp (o : PartsOptions) (ctype : string) (v : FileVars)
    outPath w (l : bytes) :
  temp_made outPath w
    (file_line host o ctype v outPath w l).1.2
    (file_line host o ctype v outPath w l).2.
Proof.
  unfold file_line. destruct (v_buf v).
  - destruct (_ >? maxSize o).
    + pose proof (getFile_temp (prefix o) outPath ctype w) as Hget.
      destruct (getFile _ _ _ _ _) as [[[[fname file]|e] op] w1]; [|done].
      cbn [v_file fst snd] in *. eapply temp_made_same_temp; [done|].
      by rewrite !writeAll_temp.
    + cbn [v_file fst snd]. destruct (v_file v); [|apply temp_made_refl].
      left. by rewrite writeAll_temp.
  - cbn [v_file fst snd]. destruct (v_file v); [|apply temp_made_refl].
    left. by rewrite writeAll_temp.
Qed.

Lemma close_if_temp (file : option nat) (w : World) :
  w_temp (close_if file w) = w_temp w.
Proof. destruct file; [apply close_temp|done]. Qed.

Lemma file_loop_temp (o : PartsOptions) (nm ctype orig : string) op0 w0
    (body : BufReader) v outPath w :
  temp_made op0 w0 outPath w ->
  temp_made op0 w0
    (pr_outPath (file_loop host o nm ctype orig v outPath w body))
    (pr_world (file_loop host o nm ctype orig v outPath w body)).
Proof.
  revert v outPath w.
  apply (file_loop_rule host o nm ctype orig
           (fun _ op w => temp_made op0 w0 op w)
           (fun r => temp_made op0 w0 (pr_outPath r) (pr_world r))).
  - done.
  - intros v op w l rest H _. cbn [pr_outPath pr_world].
    eapply temp_made_same_temp; [done|apply close_if_temp].
  - intros v op w l rest H _ _. cbn [pr_outPath pr_world].
    eapply temp_made_same_temp; [done|apply close_if_temp].
  - intros v op w l H _ _.
    pose proof (file_line_temp o ctype v op w l) as Hline.
    destruct (file_line host o ctype v op w l) as [[[v'|e] op'] w'];
      cbn [fst snd] in Hline.
    + by eapply temp_made_trans.
    + intros rest. by eapply temp_made_trans.
Qed.

Lemma one_part_temp (o : PartsOptions) outPath w (body : BufReader) :
  temp_made outPath w
    (pr_outPath (one_part host o outPath w body))
    (pr_world (one_part host o outPath w body)).
Proof.
  unfold one_part.
  destruct (readHeaders host ∅ body) as [[headers|e] body'];
    [|apply temp_made_refl].
  destruct (negb (truthy _)); [apply temp_made_refl|].
  destruct (negb (is_form_data _)); [apply temp_made_refl|].
  destruct (param_exec _ _) as [matched|]; [|apply temp_made_refl].
  destruct (truthy (headers !! "content-type"%string)).
  - unfold file_part. destruct (negb (maxSize o =? 0)).
    + apply file_loop_temp, temp_made_refl.
    + pose proof (getFile_temp (prefix o) outPath
                    (default ""%string (headers !! "content-type"%string)) w) as Hget.
      destruct (getFile _ _ _ _ _) as [[[[fname file]|e] op] w1];
        cbn [fst snd] in Hget; [|done].
      by apply file_loop_temp.
  - destruct (field_loop _ _ _ _ _). apply temp_made_refl.
Qed.

Lemma parts_from_temp (o : PartsOptions) outPath w (body : BufReader) :
  exists last, temp_made outPath w last (g_world (parts_from host o outPath w body)).
Proof.
  revert outPath w body.
  apply (parts_from_ind host o (fun op w _ g =>
           exists last, temp_made op w last (g_world g))).
  intros outPath w body r.
  pose proof (one_part_temp o outPath w body) as Hturn. fold r in Hturn.
  destruct (pr_end r) as [p [|]|e]; cbn [g_world].
  - by eexists.
  - intros g [last Hrest]. exists last. cbn [yield_first g_world].
    by eapply temp_made_trans.
  - by eexists.
Qed.

(** X7. A run of [parts] makes a temporary directory at most once, however
    many file parts it writes to the storage, and makes none when an output
    directory is given; the names of the directories that the platform makes
    are not empty. *)
Theorem output_directory_made_once (o : PartsOptions) (w : World)
    (body : BufReader) :
  (w_temp (g_world (parts host o w body)) <= S (w_temp w))%nat /\
  (truthy (outPath o) = true ->
   w_temp (g_world (parts host o w body)) = w_temp w).
Proof.
  destruct (parts_from_temp o (outPath o) w body) as [last [[_ H]|(Hf & _ & H)]];
    fold (parts host o w body) in H.
  - split; [lia|done].
  - split; [lia|]. congruence.
Qed.

End OutputDirectory.

Lemma open_host_names_directories : forall n, temp_dir open_host n <> ""%string.
Proof. intros n. discriminate. Qed.

Lemma output_directory_made_once_witness :
  (w_temp (g_world (parts open_host (demo_options 0 100) empty_world
                      (tl (new_BufReader (encode_form "B" demo_form_repeats)))))
   <= S (w_temp empty_world))%nat /\
  (truthy (outPath (demo_options 0 100)) = true ->
   w_temp (g_world (parts open_host (demo_options 0 100) empty_world
                      (tl (new_BufReader (encode_form "B" demo_form_repeats)))))
   = w_temp empty_world).
Proof.
  exact (output_directory_made_once open_host open_host_names_directories
           (demo_options 0 100) empty_world
           (tl (new_BufReader (encode_form "B" demo_form_repeats)))).
Defined.

(* ===================================================================== *)
(** ** What is left of the line source *)
(* ===================================================================== *)

Lemma readHeaders_suffix (host : Host) (body : BufReader) :
  forall headers, (readHeaders host headers body).2 `suffix_of` body.
Proof.
  induction body as [|raw body IH]; intros headers; cbn [readHeaders]; [done|].
  destruct (stripEol raw) as [|b bs]; [by apply suffix_cons_r|].
  destruct (split_at_colon [] (b :: bs)) as [[k v]|]; [|by apply suffix_cons_r].
  destruct (String.eqb _ _); [by apply suffix_cons_r|].
  apply suffix_cons_r, IH.
Qed.

Lemma file_loop_suffix (host : Host) (o : PartsOptions) (nm ctype orig : string)
    (body : BufReader) :
  forall v outPath w,
    pr_body (file_loop host o nm ctype orig v outPath w body) `suffix_of` body.
Proof.
  induction body as [|l body IH]; intros v outPath w; [done|].
  rewrite file_loop_step.
  destruct (is_boundary o (stripEol l)); [by apply suffix_cons_r|].
  destruct (_ >? maxFileSize o); [by apply suffix_cons_r|].
  destruct (file_line _ _ _ _ _ _ _) as [[[v'|e] op] w'];
    [apply suffix_cons_r, IH|by apply suffix_cons_r].
Qed.

Lemma field_loop_suffix (host : Host) (o : PartsOptions) (nm : string)
    (body : BufReader) :
  forall acc, (field_loop host o nm acc body).2 `suffix_of` body.
Proof.
  induction body as [|raw body IH]; intros acc; cbn [field_loop]; [done|].
  destruct (is_boundary o (stripEol raw)); [by apply suffix_cons_r|].
  apply suffix_cons_r, IH.
Qed.

(** A turn of the outer loop only takes lines from the front of the line
    source. *)
Lemma one_part_suffix (host : Host) (o : PartsOptions) outPath w
    (body : BufReader) :
  pr_body (one_part host o outPath w body) `suffix_of` body.
Proof.
  unfold one_part.
  pose proof (readHeaders_suffix host body ∅) as Hh.
  destruct (readHeaders host ∅ body) as [[headers|e] body']; cbn [snd] in Hh;
    [|done].
  destruct (negb (truthy _)); [done|].
  destruct (negb (is_form_data _)); [done|].
  destruct (param_exec _ _) as [matched|]; [|done].
  destruct (truthy (headers !! "content-type"%string)).
  - unfold file_part. destruct (negb (maxSize o =? 0)).
    + etrans; [apply file_loop_suffix|done].
    + destruct (getFile _ _ _ _ _) as [[[[fname file]|e] op] w1]; [|done].
      etrans; [apply file_loop_suffix|done].
  - pose proof (field_loop_suffix host o (unquote matched) body' []) as Hf.
    destruct (field_loop _ _ _ _ _) as [e b]. cbn [snd pr_body] in *.
    by etrans.
Qed.

Lemma total_suffix (a b : list bytes) : a `suffix_of` b -> total a <= total b.
Proof.
  intros [k ->]. rewrite total_app. pose proof (total_nonneg k). lia.
Qed.

(* ===================================================================== *)
(** ** A body that fits in memory *)
(* ===================================================================== *)

Lemma file_loop_within (host : Host) (o : PartsOptions) (nm ctype orig : string)
    (body : BufReader) :
  forall (n : Z) (buf : bytes) outPath w,
    n + total body <= maxSize o ->
    pr_world (file_loop host o nm ctype orig
                {| v_byteLength := n; v_file := None; v_filename := None;
                   v_buf := Some buf |} outPath w body) = w.
Proof.
  induction body as [|l body IH]; intros n buf outPath w Hm; [done|].
  rewrite total_cons in Hm.
  pose proof (total_nonneg body). pose proof (byteLength_nonneg l).
  rewrite file_loop_step. cbn [v_file v_byteLength close_if].
  destruct (is_boundary o (stripEol l)); [done|].
  destruct (_ >? maxFileSize o); [done|].
  unfold file_line. cbn [v_buf v_byteLength v_file v_filename].
  destruct (Z.gtb_spec (n + byteLength l) (maxSize o)); [lia|].
  apply IH. lia.
Qed.

Lemma one_part_within (host : Host) (o : PartsOptions) outPath w
    (body : BufReader) :
  0 < maxSize o ->
  total body <= maxSize o ->
  pr_world (one_part host o outPath w body) = w.
Proof.
  intros Hpos Hm. unfold one_part.
  pose proof (readHeaders_suffix host body ∅) as Hh.
  destruct (readHeaders host ∅ body) as [[headers|e] body']; cbn [snd] in Hh;
    [|done].
  destruct (negb (truthy _)); [done|].
  destruct (negb (is_form_data _)); [done|].
  destruct (param_exec _ _) as [matched|]; [|done].
  destruct (truthy (headers !! "content-type"%string)).
  - unfold file_part. destruct (Z.eqb_spec (maxSize o) 0); [lia|]. cbn [negb].
    apply file_loop_within. apply total_suffix in Hh. lia.
  - by destruct (field_loop _ _ _ _ _).
Qed.

(** X8. Under a positive [maxSize] that the whole stream handed to [parts]
    does not exceed, the run never touches the storage: no directory and no
    file is made, whatever the stream holds and however the run ends. *)
Theorem small_body_never_touches_storage (host : Host) (o : PartsOptions)
    (w : World) (body : BufReader) :
  0 < maxSize o ->
  total body <= maxSize o ->
  g_world (parts host o w body) = w.
Proof.
  intros Hpos. unfold parts. generalize (outPath o) as outPath.
  intros outPath. revert outPath w body.
  apply (parts_from_ind host o (fun _ w body g =>
           total body <= maxSize o -> g_world g = w)).
  intros outPath w body r.
  pose proof (one_part_suffix host o outPath w body) as Hs. fold r in Hs.
  apply total_suffix in Hs.
  destruct (pr_end r) as [p [|]|e]; cbn [g_world].
  - intros Hm. by apply one_part_within.
  - intros g Hrest Hm. cbn [yield_first g_world].
    rewrite Hrest by lia. by apply one_part_within.
  - intros Hm. by apply one_part_within.
Qed.

Lemma small_body_never_touches_storage_witness :
  g_world (parts open_host (demo_options 1000 2000) empty_world
             (tl (new_BufReader (encode_form "B" demo_form_repeats))))
  = empty_world.
Proof.
  refine (small_body_never_touches_storage open_host (demo_options 1000 2000)
            empty_world (tl (new_BufReader (encode_form "B" demo_form_repeats)))
            _ _).
  - reflexivity.
  - vm_compute. discriminate.
Defined.

(* ===================================================================== *)
(** ** Parts end on a marker *)
(* ===================================================================== *)

Lemma file_loop_needs_marker (host : Host) (o : PartsOptions)
    (nm ctype orig : string) (body : BufReader) :
  Forall (content_line o) body ->
  forall v outPath w p fin,
    pr_end (file_loop host o nm ctype orig v outPath w body) <> Yielded p fin.
Proof.
  induction 1 as [|l body Hl _ IH]; intros v outPath w p fin; [done|].
  rewrite file_loop_step, Hl.
  destruct (_ >? maxFileSize o); [done|].
  destruct (file_line _ _ _ _ _ _ _) as [[[v'|e] op] w']; [apply IH|done].
Qed.

Lemma field_loop_needs_marker (host : Host) (o : PartsOptions) (nm : string)
    (body : BufReader) :
  Forall (content_line o) body ->
  forall acc p fin, (field_loop host o nm acc body).1 <> Yielded p fin.
Proof.
  induction 1 as [|l body Hl _ IH]; intros acc p fin; cbn [field_loop]; [done|].
  rewrite Hl. apply IH.
Qed.

Lemma Forall_suffix_of {A : Type} (P : A -> Prop) (a b : list A) :
  a `suffix_of` b -> Forall P b -> Forall P a.
Proof. intros [k ->] H. by apply Forall_app in H as [_ H]. Qed.

(** X9. A part is only yielded when a marker line ends it: from a stream
    without a marker line [parts] yields nothing and throws. *)
Theorem no_marker_no_part (host : Host) (o : PartsOptions) (w : World)
    (body : BufReader) :
  Forall (content_line o) body ->
  g_parts (parts host o w body) = [] /\
  is_Some (g_thrown (parts host o w body)).
Proof.
  intros Hc. unfold parts. rewrite parts_from_unfold. cbv zeta.
  assert (forall p fin,
    pr_end (one_part host o (outPath o) w body) <> Yielded p fin) as Hno.
  { intros p fin. unfold one_part.
    pose proof (readHeaders_suffix host body ∅) as Hh.
    destruct (readHeaders host ∅ body) as [[headers|e] body']; cbn [snd] in Hh;
      [|done].
    pose proof (Forall_suffix_of _ _ _ Hh Hc) as Hc'.
    destruct (negb (truthy _)); [done|].
    destruct (negb (is_form_data _)); [done|].
    destruct (param_exec _ _) as [matched|]; [|done].
    destruct (truthy (headers !! "content-type"%string)).
    - unfold file_part. destruct (negb (maxSize o =? 0)).
      + by apply file_loop_needs_marker.
      + destruct (getFile _ _ _ _ _) as [[[[fname file]|e] op] w1]; [|done].
        by apply file_loop_needs_marker.
    - pose proof (field_loop_needs_marker host o (unquote matched) body' Hc' [] p fin).
      by destruct (field_loop _ _ _ _ _). }
  destruct (pr_end (one_part host o (outPath o) w body)) as [p fin|e].
  - by destruct (Hno p fin).
  - by split; [|eexists].
Qed.

Lemma no_marker_no_part_witness :
  g_parts (parts open_host (demo_options 0 100) empty_world
             (demo_field_head ++ [line "a"; line "b"])) = [] /\
  is_Some (g_thrown (parts open_host (demo_options 0 100) empty_world
                       (demo_field_head ++ [line "a"; line "b"]))).
Proof.
  refine (no_marker_no_part open_host (demo_options 0 100) empty_world
            (demo_field_head ++ [line "a"; line "b"]) _).
  repeat constructor.
Defined.

(* ===================================================================== *)
(** ** The two consumption methods side by side *)
(* ===================================================================== *)

(** X11. The [files] of a result of [read] are absent or not empty: the
    array is only made when the first file part arrives, so a body without
    a file part gives no [files] at all, never an empty array. *)
Theorem read_files_absent_or_nonempty (host : Host)
    (options : FormDataReadOptions) (this : FormDataReader) (w : World)
    (result : FormDataBody) (this' : FormDataReader) (w' : World) :
  read host options this w = (Ok result, this', w') ->
  files result <> Some [] /\
  (files result = None <->
   omap file_of (g_parts (drain host (stream options this).1 this w).1) = []).
Proof.
  unfold read, drain, stream. cbn [fst].
  destruct (reading this); [done|].
  destruct (readToStartOrEnd _ _ _) as [[[|]|e] body]; [| |done].
  - set (g := parts host _ w body).
    assert (files (fold_left collect (g_parts g) empty_result) <> Some [] /\
            (files (fold_left collect (g_parts g) empty_result) = None <->
             omap file_of (g_parts g) = [])) as Hfiles.
    { rewrite collect_files. destruct (omap file_of (g_parts g)); [done|].
      split; [|done]. cbn [files empty_result default from_option id app]. done. }
    destruct (g_thrown g) as [err|].
    + destruct (is_PermissionDenied err); [|done]. by intros [= <- _ _].
    + by intros [= <- _ _].
  - by intros [= <- _ _].
Qed.

Lemma read_files_absent_or_nonempty_witness :
  files {| fields := {[ "a"%string := "1"%string; "b"%string := "two"%string ]};
           files := None |} <> Some [] /\
  (files {| fields := {[ "a"%string := "1"%string; "b"%string := "two"%string ]};
            files := None |} = None <->
   omap file_of
     (g_parts (drain open_host (stream no_options
                 (demo_reader (encode_form "B" [TextEntry "a" "1"; TextEntry "b" "two"]))).1
                 (demo_reader (encode_form "B" [TextEntry "a" "1"; TextEntry "b" "two"]))
                 empty_world).1) = []).
Proof.
  refine (read_files_absent_or_nonempty open_host no_options
            (demo_reader (encode_form "B" [TextEntry "a" "1"; TextEntry "b" "two"]))
            empty_world _ (set_body (set_reading (demo_reader [])) []) empty_world _).
  vm_compute. reflexivity.
Defined.

(** Neither consumption method hands the option [prefix] to [parts]:
    whatever [prefix] the options name, [read] and [stream] behave as with
    none. *)
Remark prefix_option_is_ignored (host : Host) (options : FormDataReadOptions)
    (p : option string) (this : FormDataReader) (w : World) :
  read host (with_prefix p options) this w = read host options this w /\
  drain host (stream (with_prefix p options) this).1 this w
  = drain host (stream options this).1 this w /\
  prefix (parts_options this (with_prefix p options)) = None.
Proof. done. Qed.

(* ===================================================================== *)
(** ** The markers of a reader *)
(* ===================================================================== *)

Lemma equals_eq (a b : bytes) : equals a b = true -> a = b.
Proof.
  revert b. induction a as [|x a IH]; intros [|y b]; cbn [equals]; try done.
  intros [Hx Hab]%andb_true_iff. apply Byte.byte_dec_bl in Hx as ->.
  by rewrite (IH b Hab).
Qed.

(** X13. A reader that the constructor returns has its flag down and the
    given stream, and its final marker is its part marker with two hyphens
    behind it, so that no line is taken for both markers; the text encoder
    encodes two hyphens at the end of a string as two bytes behind the
    encoding of what is before them. *)
Theorem constructed_reader_markers (host : Host) (contentType : string)
    (body : BufReader) (this : FormDataReader) :
  (forall s, text_encode host (s ++ "--")
             = text_encode host s ++ [Byte.x2d; Byte.x2d]) ->
  new_FormDataReader host contentType body = Ok this ->
  reading this = false /\
  rd_body this = body /\
  boundaryFinal this = boundaryPart this ++ [Byte.x2d; Byte.x2d] /\
  forall l,
    isEqual l (boundaryPart this) = true ->
    isEqual l (boundaryFinal this) = false.
Proof.
  intros Henc. unfold new_FormDataReader.
  destruct (param_exec "boundary" contentType) as [matched|]; [|done].
  intros [= <-]. cbn [reading rd_body boundaryFinal boundaryPart].
  assert (text_encode host ("--" ++ unquote matched ++ "--")
          = text_encode host ("--" ++ unquote matched) ++ [Byte.x2d; Byte.x2d])
    as Hfinal by apply (Henc ("--" ++ unquote matched)%string).
  repeat split; [done|].
  intros l Hp. apply not_true_is_false. intros Hf.
  unfold isEqual in *. apply equals_eq in Hp, Hf.
  rewrite Hfinal, <- Hp in Hf. apply (f_equal length) in Hf.
  rewrite length_app in Hf. simpl in Hf. lia.
Qed.

Lemma open_host_encodes_hyphens (s : string) :
  text_encode open_host (s ++ "--")
  = text_encode open_host s ++ [Byte.x2d; Byte.x2d].
Proof.
  cbn [text_encode open_host]. unfold list_byte_of_string.
  induction s as [|c s IH]; [done|]. simpl. by rewrite IH.
Qed.

Lemma constructed_reader_markers_witness :
  let this := demo_reader (encode_form "B" demo_form_file) in
  reading this = false /\
  rd_body this = new_BufReader (encode_form "B" demo_form_file) /\
  boundaryFinal this = boundaryPart this ++ [Byte.x2d; Byte.x2d] /\
  forall l,
    isEqual l (boundaryPart this) = true ->
    isEqual l (boundaryFinal this) = false.
Proof.
  exact (constructed_reader_markers open_host "multipart/form-data; boundary=B"
           (new_BufReader (encode_form "B" demo_form_file))
           (demo_reader (encode_form "B" demo_form_file))
           open_host_encodes_hyphens eq_refl).
Defined.

(* ===================================================================== *)
(** ** The native HTTP server *)
(* ===================================================================== *)

(** X14. [close] is idempotent: a second call changes neither the server
    object nor the platform, so the underlying server is shut down once.
    After the first call on a server that was not closed, the object is
    closed and holds no server, and the server it held is stopped and no
    longer keeps the process alive. *)
Theorem server_close_idempotent (this : NativeServer.Server)
    (d : NativeServer.Deno) :
  let '(this1, d1) := NativeServer.close this d in
  NativeServer.close this1 d1 = (this1, d1) /\
  NativeServer.closed this1 = true /\
  (NativeServer.closed this = false ->
   NativeServer.httpServer this1 = None /\
   forall h, NativeServer.httpServer this = Some h ->
     NativeServer.servers d1 !! h
     = (fun _ => {| NativeServer.hs_ref := false;
                    NativeServer.hs_running := false |})
         <$> NativeServer.servers d !! h).
Proof.
  unfold NativeServer.close.
  destruct (NativeServer.closed this) eqn:Hc.
  - by rewrite Hc.
  - destruct (NativeServer.httpServer this) as [h|] eqn:Hh; cbn.
    + repeat split. intros h' [= <-].
      rewrite !list_lookup_alter_eq. by destruct (_ !! h).
    + by repeat split.
Qed.

(** X15. A [listen] that succeeds starts one server and opens the stream of
    requests; a second [listen] then fails with the error of the server
    that is already listening and changes nothing.  The stream can be
    iterated once: the first call for its iterator succeeds, also when
    [close] was called before it, and a second call, made while the first
    iterator holds the stream, fails with the error of the locked stream
    and changes nothing. *)
Theorem server_listen_once (this : NativeServer.Server) (d : NativeServer.Deno)
    (h : nat) (this1 : NativeServer.Server) (d1 : NativeServer.Deno) :
  NativeServer.listen this d = (NativeServer.Done h, this1, d1) ->
  NativeServer.listen this1 d1
  = (NativeServer.Raised NativeServer.AlreadyListening, this1, d1) /\
  NativeServer.servers d1
  = NativeServer.servers d ++
    [{| NativeServer.hs_ref := true; NativeServer.hs_running := true |}] /\
  (NativeServer.asyncIterator this1).1 = NativeServer.Done h /\
  NativeServer.asyncIterator (NativeServer.asyncIterator this1).2
  = (NativeServer.Raised NativeServer.StreamLocked,
     (NativeServer.asyncIterator this1).2) /\
  (NativeServer.asyncIterator (NativeServer.close this1 d1).1).1
  = NativeServer.Done h.
Proof.
  unfold NativeServer.listen, NativeServer.serve.
  destruct (NativeServer.httpServer this) eqn:Hh; [done|].
  assert (NativeServer.servers
            (NativeServer.add_abort_listener (NativeServer.options this) d)
          = NativeServer.servers d) as Hs.
  { unfold NativeServer.add_abort_listener. by destruct (NativeServer.has_signal _). }
  destruct (negb _); [done|]. destruct (NativeServer.can_bind _); [|done].
  intros [= <- <- <-]. cbn. rewrite Hs. repeat split.
  unfold NativeServer.close. cbn. by destruct (NativeServer.closed this).
Qed.

Lemma server_listen_once_witness :
  let r := NativeServer.listen demo_server demo_deno in
  NativeServer.listen r.1.2 r.2
  = (NativeServer.Raised NativeServer.AlreadyListening, r.1.2, r.2) /\
  NativeServer.servers r.2
  = NativeServer.servers demo_deno ++
    [{| NativeServer.hs_ref := true; NativeServer.hs_running := true |}] /\
  (NativeServer.asyncIterator r.1.2).1 = NativeServer.Done 1%nat /\
  NativeServer.asyncIterator (NativeServer.asyncIterator r.1.2).2
  = (NativeServer.Raised NativeServer.StreamLocked,
     (NativeServer.asyncIterator r.1.2).2) /\
  (NativeServer.asyncIterator (NativeServer.close r.1.2 r.2).1).1
  = NativeServer.Done 1%nat.
Proof.
  refine (server_listen_once demo_server demo_deno 1%nat _ _ _).
  reflexivity.
Defined.

(** X16. The flag [closed] is never taken back.  On a closed server [close]
    does nothing; so when [listen] is called again after a [close], which
    the test of [listen] allows, the server it starts is not shut down by a
    later [close] and goes on serving. *)
Theorem server_closed_stays_closed (this : NativeServer.Server)
    (d : NativeServer.Deno) :
  NativeServer.closed this = true ->
  NativeServer.close this d = (this, d) /\
  forall h this1 d1,
    NativeServer.listen this d = (NativeServer.Done h, this1, d1) ->
    NativeServer.closed this1 = true /\
    NativeServer.close this1 d1 = (this1, d1) /\
    NativeServer.servers d1 !! h
    = Some {| NativeServer.hs_ref := true; NativeServer.hs_running := true |}.
Proof.
  intros Hc. split; [unfold NativeServer.close; by rewrite Hc|].
  intros h this1 d1. unfold NativeServer.listen, NativeServer.serve.
  destruct (NativeServer.httpServer this); [done|].
  destruct (negb _); [done|]. destruct (NativeServer.can_bind _); [|done].
  intros [= <- <- <-]. cbn [NativeServer.closed NativeServer.servers].
  repeat split; [done| |].
  - unfold NativeServer.close. cbn [NativeServer.closed]. by rewrite Hc.
  - assert (NativeServer.servers
              (NativeServer.add_abort_listener (NativeServer.options this) d)
            = NativeServer.servers d) as ->.
    { unfold NativeServer.add_abort_listener.
      by destruct (NativeServer.has_signal _). }
    by rewrite lookup_app_r, Nat.sub_diag by lia.
Qed.

Lemma server_closed_stays_closed_witness :
  let r := NativeServer.listen demo_closed_server demo_deno in
  NativeServer.closed r.1.2 = true /\
  NativeServer.close r.1.2 r.2 = (r.1.2, r.2) /\
  NativeServer.servers r.2 !! 1%nat
  = Some {| NativeServer.hs_ref := true; NativeServer.hs_running := true |}.
Proof.
  refine (proj2 (server_closed_stays_closed demo_closed_server demo_deno _)
            1%nat _ _ _).
  - reflexivity.
  - reflexivity.
Defined.

(* ===================================================================== *)
(** ** The headers of a part *)
(* ===================================================================== *)

(** X17. The headers of a part are checked before anything else is done
    with it: a part without [content-disposition], with one that does not
    start with [form-data;], or with one that has no [name] parameter fails
    with its bad request, whether or not it names a content type; none of
    its content lines is read, and the storage and the output directory are
    not touched. *)
Theorem part_headers_checked_first (host : Host) (o : PartsOptions)
    outPath w (body body' : BufReader) (headers : gmap string string) :
  readHeaders host ∅ body = (Ok headers, body') ->
  let disp := headers !! "content-disposition"%string in
  let r := one_part host o outPath w body in
  (truthy disp = false ->
   r = failed (BadRequest MissingContentDisposition) outPath w body') /\
  (truthy disp = true -> is_form_data (default ""%string disp) = false ->
   r = failed (BadRequest UnexpectedContentDisposition) outPath w body') /\
  (truthy disp = true -> is_form_data (default ""%string disp) = true ->
   param_exec "name" (default ""%string disp) = None ->
   r = failed (BadRequest UnableToDetermineName) outPath w body').
Proof.
  intros Hh disp r. subst disp r. unfold one_part. rewrite Hh.
  split; [|split].
  - by intros ->.
  - by intros -> ->.
  - by intros -> -> ->.
Qed.

Lemma part_headers_checked_first_witness :
  one_part open_host (demo_options 0 100) None empty_world
    [line "Content-Type: text/plain"; CRLF; line "hi"; line "--B--"]
  = failed (BadRequest MissingContentDisposition) None empty_world
      [line "hi"; line "--B--"] /\
  one_part open_host (demo_options 0 100) None empty_world
    [line "Content-Disposition: attachment"; line "Content-Type: text/plain";
     CRLF; line "hi"; line "--B--"]
  = failed (BadRequest UnexpectedContentDisposition) None empty_world
      [line "hi"; line "--B--"] /\
  one_part open_host (demo_options 0 100) None empty_world
    [line "Content-Disposition: form-data; filename=x"; CRLF; line "hi"; line "--B--"]
  = failed (BadRequest UnableToDetermineName) None empty_world
      [line "hi"; line "--B--"].
Proof.
  split; [|split].
  - refine (proj1 (part_headers_checked_first open_host (demo_options 0 100)
              None empty_world _ [line "hi"; line "--B--"]
              {[ "content-type"%string := "text/plain"%string ]} _) _).
    + vm_compute. reflexivity.
    + reflexivity.
  - refine (proj1 (proj2 (part_headers_checked_first open_host (demo_options 0 100)
              None empty_world _ [line "hi"; line "--B--"]
              {[ "content-type"%string := "text/plain"%string;
                 "content-disposition"%string := "attachment"%string ]} _)) _ _).
    + vm_compute. reflexivity.
    + reflexivity.
    + reflexivity.
  - refine (proj2 (proj2 (part_headers_checked_first open_host (demo_options 0 100)
              None empty_world _ [line "hi"; line "--B--"]
              {[ "content-disposition"%string := "form-data; filename=x"%string ]} _))
              _ _ _).
    + vm_compute. reflexivity.
    + reflexivity.
    + reflexivity.
    + reflexivity.
Defined.

(* ===================================================================== *)
(** ** Files under the default options *)
(* ===================================================================== *)

Lemma file_loop_stored (host : Host) (o : PartsOptions) (nm ctype orig : string)
    (body : BufReader) v outPath w :
  v_buf v = None /\ is_Some (v_filename v) ->
  forall p fin,
    pr_end (file_loop host o nm ctype orig v outPath w body) = Yielded p fin ->
    stored_part p.
Proof.
  revert v outPath w.
  apply (file_loop_rule host o nm ctype orig
           (fun v _ _ => v_buf v = None /\ is_Some (v_filename v))
           (fun r => forall p fin, pr_end r = Yielded p fin -> stored_part p)).
  - done.
  - intros v op w l rest [Hb Hn] _ p fin [= <- _]. by rewrite Hb.
  - done.
  - intros v op w l [Hb Hn] _ _. unfold file_line. by rewrite Hb.
Qed.

Lemma parts_from_stored (host : Host) (o : PartsOptions) outPath w
    (body : BufReader) :
  maxSize o = 0 ->
  Forall stored_part (g_parts (parts_from host o outPath w body)).
Proof.
  intros Hz. revert outPath w body.
  apply (parts_from_ind host o (fun _ _ _ g => Forall stored_part (g_parts g))).
  intros outPath w body r.
  assert (forall p fin, pr_end r = Yielded p fin -> stored_part p) as Hp.
  { subst r. unfold one_part.
    destruct (readHeaders host ∅ body) as [[headers|e] body']; [|done].
    destruct (negb (truthy _)); [done|].
    destruct (negb (is_form_data _)); [done|].
    destruct (param_exec _ _) as [matched|]; [|done].
    destruct (truthy (headers !! "content-type"%string)).
    - unfold file_part. rewrite Hz. cbn [Z.eqb negb].
      destruct (getFile _ _ _ _ _) as [[[[fname file]|e] op] w1]; [|done].
      by apply file_loop_stored.
    - destruct (field_loop _ _ _ _ _) as [e b] eqn:E. cbn [pr_end].
      intros p fin ->.
      by apply (f_equal fst), field_loop_yields_field in E as [v ->]. }
  destruct (pr_end r) as [p [|]|e]; cbn [g_parts].
  - constructor; [by eapply Hp|done].
  - intros g Hg. constructor; [by eapply Hp|done].
  - done.
Qed.

(** X18. Under the default options, and whenever [maxSize] is 0, [read]
    returns no file held in memory: every file of the result has a storage
    path and no content. *)
Theorem read_default_files_on_storage (host : Host)
    (options : FormDataReadOptions) (this : FormDataReader) (w : World)
    (result : FormDataBody) (this' : FormDataReader) (w' : World) :
  default DEFAULT_MAX_SIZE (opt_maxSize options) = 0 ->
  read host options this w = (Ok result, this', w') ->
  Forall stored_file (default [] (files result)).
Proof.
  intros Hz. unfold read. destruct (reading this); [done|].
  destruct (readToStartOrEnd _ _ _) as [[[|]|e] body]; [| |done].
  - set (g := parts host _ w body).
    assert (Forall stored_file
              (default [] (files (fold_left collect (g_parts g) empty_result))))
      as Hfiles.
    { pose proof (parts_from_stored host
                    (parts_options (set_reading this) options)
                    (opt_outPath options) w body Hz) as Hs.
      change (parts_from host _ _ w body) with g in Hs.
      rewrite collect_files.
      assert (Forall stored_file (omap file_of (g_parts g))) as Ho.
      { induction Hs as [|[n [v|f]] ps Hp _ IH]; [done|done|].
        rewrite omap_step. by constructor. }
      by destruct (omap file_of (g_parts g)). }
    destruct (g_thrown g) as [err|].
    + destruct (is_PermissionDenied err); [|done]. by intros [= <- _ _].
    + by intros [= <- _ _].
  - by intros [= <- _ _].
Qed.

Lemma read_default_files_on_storage_witness :
  Forall stored_file
    (default []
       (files {| fields := {[ "a"%string := "2"%string ]};
                 files := Some [{| content := None; contentType := "text/plain";
                                   filename := Some "/tmp/d/x.txt"%string;
                                   name := "f"; originalName := "x.txt" |};
                                {| content := None; contentType := "text/plain";
                                   filename := Some "/tmp/d/xx.txt"%string;
                                   name := "f"; originalName := "y.txt" |}] |})).
Proof.
  refine (read_default_files_on_storage open_host no_options
            (demo_reader (encode_form "B" demo_form_repeats)) empty_world _
            (set_body (set_reading (demo_reader [])) [])
            (read open_host no_options
               (demo_reader (encode_form "B" demo_form_repeats)) empty_world).2
            _ _).
  - reflexivity.
  - vm_compute. reflexivity.
Defined.

(* ===================================================================== *)
(** ** The failures of a decoding *)
(* ===================================================================== *)

Lemma getFile_errors (host : Host) (prefix outPath : option string)
    (ctype : string) (w : World) e outPath' w' :
  getFile host prefix outPath ctype w = (Throw e, outPath', w') ->
  e = BadRequest InvalidMediaType \/ e = PermissionDenied \/ e = AlreadyExists.
Proof.
  unfold getFile.
  destruct (extension host ctype) as [ext|]; [|intros [= <- _ _]; by left].
  destruct (String.eqb ext ""); [intros [= <- _ _]; by left|].
  destruct (truthy outPath).
  - simpl. unfold open_createNew. simpl.
    destruct (write_denied host _); [intros [= <- _ _]; by right; left|].
    destruct (path_exists _ _); [intros [= <- _ _]; by right; right|done].
  - unfold makeTempDir.
    destruct (temp_denied host); [intros [= <- _ _]; by right; left|].
    simpl. unfold open_createNew. simpl.
    destruct (write_denied host _); [intros [= <- _ _]; by right; left|].
    destruct (path_exists _ _); [intros [= <- _ _]; by right; right|done].
Qed.

Lemma getFile_part_error (host : Host) (o : PartsOptions) outPath
    (ctype : string) (w : World) e outPath' w' :
  getFile host (prefix o) outPath ctype w = (Throw e, outPath', w') ->
  part_error o e.
Proof. intros [-> | [-> | ->]]%getFile_errors; by cbn. Qed.

Lemma file_loop_errors (host : Host) (o : PartsOptions) (nm ctype orig : string)
    (body : BufReader) v outPath w e :
  pr_end (file_loop host o nm ctype orig v outPath w body) = Failed e ->
  part_error o e.
Proof.
  apply (file_loop_rule host o nm ctype orig (fun _ _ _ => True)
           (fun r => pr_end r = Failed e -> part_error o e)); try done.
  - intros v' op w' _ [= <-]. by cbn.
  - intros v' op w' l rest _ _ _ [= <-]. by cbn.
  - intros v' op w' l _ _ _. unfold file_line. destruct (v_buf v'); [|done].
    destruct (_ >? maxSize o); [|done].
    destruct (getFile _ _ _ _ _) as [[[[fname file]|e'] op'] w1] eqn:Hget; [done|].
    intros rest [= <-]. by eapply getFile_part_error.
Qed.

Lemma readHeaders_errors (host : Host) (body : BufReader) :
  forall headers e body',
    readHeaders host headers body = (Throw e, body') ->
    e = BadRequest MalformedHeader \/ e = BadRequest UnexpectedEndOfBody.
Proof.
  induction body as [|raw body IH]; intros headers e body'; cbn [readHeaders].
  - intros [= <- _]. by right.
  - destruct (stripEol raw) as [|b bs]; [done|].
    destruct (split_at_colon [] (b :: bs)) as [[k v]|];
      [|intros [= <- _]; by left].
    destruct (String.eqb _ _); [intros [= <- _]; by left|]. apply IH.
Qed.

Lemma one_part_errors (host : Host) (o : PartsOptions) outPath w
    (body : BufReader) e :
  pr_end (one_part host o outPath w body) = Failed e -> part_error o e.
Proof.
  unfold one_part.
  destruct (readHeaders host ∅ body) as [[headers|e'] body'] eqn:Hh.
  - destruct (negb (truthy _)); [intros [= <-]; by cbn|].
    destruct (negb (is_form_data _)); [intros [= <-]; by cbn|].
    destruct (param_exec _ _) as [matched|]; [|intros [= <-]; by cbn].
    destruct (truthy (headers !! "content-type"%string)).
    + unfold file_part. destruct (negb (maxSize o =? 0)).
      * apply file_loop_errors.
      * destruct (getFile _ _ _ _ _) as [[[[fname file]|e'] op] w1] eqn:Hget.
        -- apply file_loop_errors.
        -- intros [= <-]. by eapply getFile_part_error.
    + destruct (field_loop _ _ _ _ _) as [e' b] eqn:E. cbn [pr_end].
      intros ->. apply (f_equal fst), field_loop_failure in E as ->. by cbn.
  - intros [= <-]. by apply readHeaders_errors in Hh as [-> | ->].
Qed.

Lemma parts_from_errors (host : Host) (o : PartsOptions) outPath w
    (body : BufReader) e :
  g_thrown (parts_from host o outPath w body) = Some e -> part_error o e.
Proof.
  revert outPath w body.
  apply (parts_from_ind host o (fun _ _ _ g =>
           g_thrown g = Some e -> part_error o e)).
  intros outPath w body r.
  destruct (pr_end r) as [p [|]|e'] eqn:E; cbn [g_thrown]; [done|done|].
  intros [= <-]. by eapply one_part_errors.
Qed.

(** X19. The failures of [read].  [read] never fails with
    [PermissionDenied]; it fails with the error of the body that is already
    being read exactly when the flag of the reader was set; a failure with
    [RequestEntityTooLarge] names the [maxFileSize] of the options, or its
    default of 10 MB; and the bad request of a content type without
    boundary, which is the constructor's, never comes from [read]. *)
Theorem read_failures (host : Host) (options : FormDataReadOptions)
    (this : FormDataReader) (w : World) (e : Error)
    (this' : FormDataReader) (w' : World) :
  read host options this w = (Throw e, this', w') ->
  e <> PermissionDenied /\
  e <> BadRequest NoValidBoundary /\
  (e = AlreadyBeingRead <-> reading this = true) /\
  (forall limit, e = RequestEntityTooLarge limit ->
     limit = default DEFAULT_MAX_FILE_SIZE (opt_maxFileSize options)).
Proof.
  unfold read. destruct (reading this) eqn:Hr.
  - intros [= <- _ _]. by repeat split.
  - destruct (readToStartOrEnd (rd_body _) _ _) as [[[|]|e'] body] eqn:Hs.
    + set (g := parts host _ w body).
      destruct (g_thrown g) as [err|] eqn:Hg; [|done].
      apply parts_from_errors in Hg.
      destruct (is_PermissionDenied err) eqn:Hp; [done|].
      intros [= <- _ _].
      destruct err as [r| limit| | |]; cbn in Hg, Hp; try done.
      * destruct Hg as [Hg1 Hg2]. repeat split; try done. congruence.
      * repeat split; try done. intros limit' [= <-]. done.
    + done.
    + intros [= <- _ _].
      assert (e' = BadRequest UnableToFindBoundary) as ->.
      { clear -Hs. revert Hs. generalize (rd_body (set_reading this)).
        intros body0. induction body0 as [|raw body0 IH]; cbn [readToStartOrEnd].
        - by intros [= <- _].
        - destruct (isEqual _ _); [done|]. destruct (isEqual _ _); [done|].
          apply IH. }
      by repeat split.
Qed.

Lemma read_failures_witness :
  let e := RequestEntityTooLarge 3 in
  e <> PermissionDenied /\
  e <> BadRequest NoValidBoundary /\
  (e = AlreadyBeingRead <->
   reading (demo_reader (encode_form "B" demo_form_file)) = true) /\
  (forall limit, e = RequestEntityTooLarge limit ->
     limit = default DEFAULT_MAX_FILE_SIZE
               (opt_maxFileSize
                  {| opt_bufferSize := None; opt_maxFileSize := Some 3;
                     opt_maxSize := None; opt_outPath := None;
                     opt_prefix := None |})).
Proof.
  refine (read_failures open_host
            {| opt_bufferSize := None; opt_maxFileSize := Some 3;
               opt_maxSize := None; opt_outPath := None; opt_prefix := None |}
            (demo_reader (encode_form "B" demo_form_file)) empty_world
            (RequestEntityTooLarge 3)
            (read open_host
               {| opt_bufferSize := None; opt_maxFileSize := Some 3;
                  opt_maxSize := None; opt_outPath := None; opt_prefix := None |}
               (demo_reader (encode_form "B" demo_form_file)) empty_world).1.2
            (read open_host
               {| opt_bufferSize := None; opt_maxFileSize := Some 3;
                  opt_maxSize := None; opt_outPath := None; opt_prefix := None |}
               (demo_reader (encode_form "B" demo_form_file)) empty_world).2
            _).
  vm_compute. reflexivity.
Defined.

(* ===================================================================== *)
(** ** The paths of the yielded files *)
(* ===================================================================== *)

Lemma file_loop_path (host : Host) (o : PartsOptions) (nm ctype orig : string)
    (w0 : World) (body : BufReader) v outPath w :
  file_inv w0 v w ->
  forall p fin,
    pr_end (file_loop host o nm ctype orig v outPath w body) = Yielded p fin ->
    path_is_closed_file (pr_world (file_loop host o nm ctype orig v outPath w body)) p.
Proof.
  revert v outPath w.
  apply (file_loop_rule host o nm ctype orig
           (fun v _ w => file_inv w0 v w)
           (fun r => forall p fin, pr_end r = Yielded p fin ->
                       path_is_closed_file (pr_world r) p)).
  - done.
  - intros v op w l rest [_ [(Hfile & Hname & _)
                            |(_ & fn & data & Hfile & Hname & Hfiles)]] _
      p fin [= <- _]; cbn [path_is_closed_file filename pr_world].
    + rewrite Hname. done.
    + rewrite Hname, Hfile. intros fn' [= <-]. cbn [close_if].
      exists data. rewrite (close_last _ _ _ _ _ Hfiles).
      apply elem_of_app. right. by apply list_elem_of_singleton.
  - done.
  - intros v op w l Hinv _ _.
    pose proof (file_line_inv host o ctype w0 v op w l Hinv) as Hline.
    by destruct (file_line host o ctype v op w l) as [[[v'|e] op'] w'].
Qed.

Lemma one_part_path (host : Host) (o : PartsOptions) outPath w
    (body : BufReader) p fin :
  pr_end (one_part host o outPath w body) = Yielded p fin ->
  path_is_closed_file (pr_world (one_part host o outPath w body)) p.
Proof.
  unfold one_part.
  destruct (readHeaders host ∅ body) as [[headers|e] body']; [|done].
  destruct (negb (truthy _)); [done|].
  destruct (negb (is_form_data _)); [done|].
  destruct (param_exec _ _) as [matched|]; [|done].
  destruct (truthy (headers !! "content-type"%string)).
  - unfold file_part. destruct (negb (maxSize o =? 0)).
    + apply (file_loop_path _ _ _ _ _ w). split; [done|]. left. by repeat split.
    + destruct (getFile _ _ _ _ _) as [[[[fname file]|e] op] w1] eqn:Hget; [|done].
      destruct (getFile_ok _ _ _ _ _ _ _ _ _ Hget) as (-> & Hnew & _ & Hlog1).
      apply (file_loop_path _ _ _ _ _ w). split; [done|]. right. split; [done|].
      by exists fname, [].
  - destruct (field_loop _ _ _ _ _) as [e b] eqn:E. cbn [pr_end pr_world].
    intros ->. by apply (f_equal fst), field_loop_yields_field in E as [v ->].
Qed.

Lemma path_is_closed_file_kept (w w' : World) (p : Part) :
  w_files w `prefix_of` w_files w' ->
  path_is_closed_file w p -> path_is_closed_file w' p.
Proof.
  intros [k Hk]. destruct p as [n [v|f]]; [done|].
  cbn [path_is_closed_file]. intros H fn Hfn.
  destruct (H fn Hfn) as [data Hin]. exists data. rewrite Hk.
  apply elem_of_app. by left.
Qed.

Lemma parts_from_paths (host : Host) (o : PartsOptions) outPath w
    (body : BufReader) :
  w_files w `prefix_of` w_files (g_world (parts_from host o outPath w body)) /\
  Forall (path_is_closed_file (g_world (parts_from host o outPath w body)))
    (g_parts (parts_from host o outPath w body)).
Proof.
  revert outPath w body.
  apply (parts_from_ind host o (fun _ w _ g =>
           w_files w `prefix_of` w_files (g_world g) /\
           Forall (path_is_closed_file (g_world g)) (g_parts g))).
  intros outPath w body r.
  destruct (one_part_post host o outPath w body) as (_ & Hpre & _).
  fold r in Hpre.
  destruct (pr_end r) as [p [|]|e] eqn:E; cbn [g_world g_parts].
  - split; [done|]. constructor; [by eapply one_part_path|done].
  - intros g [Hrest Hg]. cbn [yield_first g_world g_parts].
    split; [by etrans|]. constructor; [|done].
    apply (path_is_closed_file_kept (pr_world r)); [done|].
    by eapply one_part_path.
  - done.
Qed.

(** X12. The storage path of every file part that [parts] yields names a
    file that the storage holds, closed, when the run is over: the files of
    the parts yielded earlier are there, closed and under their paths,
    whatever the later parts do and however the run ends. *)
Theorem yielded_paths_name_closed_files (host : Host) (o : PartsOptions)
    (w : World) (body : BufReader) :
  Forall (path_is_closed_file (g_world (parts host o w body)))
    (g_parts (parts host o w body)).
Proof. apply parts_from_paths. Qed.
